(** * An Earley recogniser: shallow embedding of [EarleyParser.py]

    The Python classes [NonTerminal], [Production], [State], [Grammar],
    [Chart] and [EarleyParser] become modules of the same names.  Python
    sets are kept as duplicate-free lists in insertion order; the order in
    which a set is iterated is left open (an [Order]), index errors are
    explicit ([Raise IndexError]) and the [while changed] loop takes fuel. *)

From Stdlib Require Import List String Arith Bool Lia Permutation.
Import ListNotations.

Set Implicit Arguments.

(** ** Outcomes of a Python computation *)

Inductive exn : Type := IndexError.

Inductive outcome (A : Type) : Type :=
| Done (a : A)
| Raise (e : exn)
| OutOfFuel.

Arguments Done {A} a.
Arguments Raise {A} e.
Arguments OutOfFuel {A}.

Definition bind {A B : Type} (c : outcome A) (k : A -> outcome B) : outcome B :=
  match c with
  | Done a => k a
  | Raise e => Raise e
  | OutOfFuel => OutOfFuel
  end.

Notation "x <- c ;; k" := (bind c (fun x => k))
  (at level 61, c at next level, right associativity).
Notation "' p <- c ;; k" := (bind c (fun x => let 'p := x in k))
  (at level 61, p pattern, c at next level, right associativity).

(** [for x in xs: body], threading the loop state [s]. *)
Fixpoint for_each {X S : Type} (xs : list X) (body : X -> S -> outcome S) (s : S)
  : outcome S :=
  match xs with
  | [] => Done s
  | x :: xs' => s' <- body x s ;; for_each xs' body s'
  end.

(** [xs[i]] on a Python sequence, for a non-negative index. *)
Definition index {A : Type} (xs : list A) (i : nat) : outcome A :=
  match nth_error xs i with
  | Some x => Done x
  | None => Raise IndexError
  end.

(** [xs[i] = v] on a list known to be long enough. *)
Fixpoint store {A : Type} (xs : list A) (i : nat) (v : A) : list A :=
  match xs, i with
  | [], _ => []
  | _ :: xs', 0 => v :: xs'
  | x :: xs', S i' => x :: store xs' i' v
  end.

(** ** Symbols *)

Module NonTerminal.
Inductive t : Type := S | NP | VP | PP | N | V | P.

Definition eq_dec (a b : t) : {a = b} + {a <> b}.
Proof. decide equality. Defined.

Definition all : list t := [S; NP; VP; PP; N; V; P].
End NonTerminal.

(** [Union[NonTerminal, str]] *)
Inductive Symbol : Type :=
| Nt (A : NonTerminal.t)
| Tok (s : string).

Definition Symbol_eq_dec (a b : Symbol) : {a = b} + {a <> b}.
Proof. decide equality; [apply NonTerminal.eq_dec | apply string_dec]. Defined.

(** ** Productions *)

Module Production.
Record t : Type := mk { lhs : NonTerminal.t; rhs : list Symbol }.

Definition eq_dec (p q : t) : {p = q} + {p <> q}.
Proof.
  decide equality; [apply (list_eq_dec Symbol_eq_dec) | apply NonTerminal.eq_dec].
Defined.
End Production.

(** ** Earley items *)

Module State.
Record t : Type := mk { production : Production.t; dot : nat; start : nat }.

Definition eq_dec (a b : t) : {a = b} + {a <> b}.
Proof.
  decide equality; try apply Nat.eq_dec. apply Production.eq_dec.
Defined.

Definition is_complete (self : t) : bool :=
  List.length (Production.rhs (production self)) <=? dot self.

Definition next_symbol (self : t) : outcome (option Symbol) :=
  if is_complete self then Done None
  else sym <- index (Production.rhs (production self)) (dot self) ;; Done (Some sym).

Definition advance (self : t) : t :=
  mk (production self) (dot self + 1) (start self).
End State.

(** ** Grammars *)

Module Grammar.
Record t : Type := mk {
  rules : NonTerminal.t -> option (list (list Symbol));
  start : NonTerminal.t
}.

(** [self.rules.get(nt, [])] *)
Definition alternatives (self : t) (nt : NonTerminal.t) : list (list Symbol) :=
  match rules self nt with
  | Some alts => alts
  | None => []
  end.

Definition productions_for (self : t) (nt : NonTerminal.t) : list Production.t :=
  map (fun rhs => Production.mk nt rhs) (alternatives self nt).
End Grammar.

(** ** Iteration order of a set

    A column is the list of its items in the order they were inserted.
    Iterating a Python set visits every element once, in an order fixed by
    the hash values and the insertion history: a permutation of that list. *)

Record Order : Type := mkOrder {
  iter :> list State.t -> list State.t;
  iter_perm : forall l, Permutation (iter l) l
}.

Definition insertion_order : Order :=
  mkOrder (fun l => l) (fun l => Permutation_refl l).

Definition reverse_order : Order :=
  mkOrder (fun l => rev l) (fun l => Permutation_sym (Permutation_rev l)).

(** ** Charts *)

Module Chart.
Definition t : Type := list (list State.t).

(** [Chart(length)] *)
Definition init (length : nat) : t := repeat [] (length + 1).

Definition mem (state : State.t) (column : list State.t) : bool :=
  if in_dec State.eq_dec state column then true else false.

Definition getitem (self : t) (idx : nat) : outcome (list State.t) :=
  index self idx.

Definition add (self : t) (idx : nat) (state : State.t) : outcome (t * bool) :=
  column <- index self idx ;;
  if negb (mem state column)
  then Done (store self idx (column ++ [state]), true)
  else Done (self, false).
End Chart.

(** ** The recogniser *)

Module EarleyParser.
Definition loop_state : Type := (Chart.t * bool)%type.

(** [if chart.add(idx, state): changed = True] *)
Definition add_flag (idx : nat) (state : State.t) (s : loop_state)
  : outcome loop_state :=
  '(chart', added) <- Chart.add (fst s) idx state ;;
  Done (chart', if added then true else snd s).

(** [prev.next_symbol() == st.production.lhs] *)
Definition sym_is (sym : option Symbol) (A : NonTerminal.t) : bool :=
  match sym with
  | Some (Nt B) => if NonTerminal.eq_dec B A then true else false
  | _ => false
  end.

Definition completer (o : Order) (i : nat) (st : State.t) (s : loop_state)
  : outcome loop_state :=
  prevs <- Chart.getitem (fst s) (State.start st) ;;
  for_each (o prevs)
    (fun prev s' =>
       psym <- State.next_symbol prev ;;
       if sym_is psym (Production.lhs (State.production st))
       then add_flag i (State.advance prev) s'
       else Done s')
    s.

Definition predictor (g : Grammar.t) (i : nat) (sym : NonTerminal.t)
  (s : loop_state) : outcome loop_state :=
  for_each (Grammar.productions_for g sym)
    (fun prod s' => add_flag i (State.mk prod 0 i) s')
    s.

Definition scanner (tokens : list string) (i : nat) (st : State.t)
  (sym : string) (s : loop_state) : outcome loop_state :=
  if i <? List.length tokens then
    tok <- index tokens i ;;
    if String.eqb tok sym then add_flag (i + 1) (State.advance st) s
    else Done s
  else Done s.

(** Body of [for st in list(chart[i])]. *)
Definition visit (o : Order) (g : Grammar.t) (tokens : list string) (i : nat)
  (st : State.t) (s : loop_state) : outcome loop_state :=
  sym <- State.next_symbol st ;;
  match sym with
  | None => completer o i st s
  | Some (Nt A) => predictor g i A s
  | Some (Tok a) => scanner tokens i st a s
  end.

(** One pass of the [while changed] body: [changed = False], then the
    [for] loop over a snapshot of column [i]. *)
Definition pass (o : Order) (g : Grammar.t) (tokens : list string) (i : nat)
  (chart : Chart.t) : outcome loop_state :=
  snapshot <- Chart.getitem chart i ;;
  for_each (o snapshot) (visit o g tokens i) (chart, false).

(** [changed = True; while changed: ...] *)
Fixpoint closure (fuel : nat) (o : Order) (g : Grammar.t)
  (tokens : list string) (i : nat) (chart : Chart.t) : outcome Chart.t :=
  match fuel with
  | 0 => OutOfFuel
  | Datatypes.S fuel' =>
      '(chart', changed) <- pass o g tokens i chart ;;
      if (changed : bool) then closure fuel' o g tokens i chart'
      else Done chart'
  end.

(** The seeding loop over the start productions. *)
Definition seed (g : Grammar.t) (chart : Chart.t) : outcome Chart.t :=
  for_each (Grammar.productions_for g (Grammar.start g))
    (fun prod chart' =>
       '(chart'', _) <- Chart.add chart' 0 (State.mk prod 0 0) ;;
       Done chart'')
    chart.

(** The chart after [for i in range(n + 1)]. *)
Definition fill (fuel : nat) (o : Order) (g : Grammar.t)
  (tokens : list string) : outcome Chart.t :=
  chart <- seed g (Chart.init (List.length tokens)) ;;
  for_each (seq 0 (List.length tokens + 1))
    (fun i chart' => closure fuel o g tokens i chart')
    chart.

(** The generator summed by the [return]. *)
Definition accepting (g : Grammar.t) (st : State.t) : bool :=
  (if NonTerminal.eq_dec (Production.lhs (State.production st)) (Grammar.start g)
   then true else false)
  && (State.start st =? 0) && State.is_complete st.

Definition count (g : Grammar.t) (column : list State.t) : nat :=
  list_sum (map (fun st => if accepting g st then 1 else 0) column).

Definition parse (fuel : nat) (o : Order) (g : Grammar.t)
  (tokens : list string) : outcome nat :=
  chart <- fill fuel o g tokens ;;
  column <- index chart (List.length tokens) ;;
  Done (count g (o column)).
End EarleyParser.

(** ** The sample grammar [RULES] *)

Definition RULES (nt : NonTerminal.t) : option (list (list Symbol)) :=
  Some
    match nt with
    | NonTerminal.S => [[Nt NonTerminal.NP; Nt NonTerminal.VP]]
    | NonTerminal.NP => [[Nt NonTerminal.N; Nt NonTerminal.PP]; [Nt NonTerminal.N]]
    | NonTerminal.PP => [[Nt NonTerminal.P; Nt NonTerminal.NP]]
    | NonTerminal.VP =>
        [[Nt NonTerminal.VP; Nt NonTerminal.PP];
         [Nt NonTerminal.V; Nt NonTerminal.VP];
         [Nt NonTerminal.V; Nt NonTerminal.NP];
         [Nt NonTerminal.V]]
    | NonTerminal.N =>
        [[Tok "can"]; [Tok "fish"]; [Tok "they"]; [Tok "rivers"]; [Tok "December"]]
    | NonTerminal.P => [[Tok "in"]]
    | NonTerminal.V => [[Tok "can"]; [Tok "they"]]
    end%string.

Definition grammar : Grammar.t := Grammar.mk RULES NonTerminal.S.

Definition sent1 : list string :=
  ["they"; "can"; "fish"; "in"; "rivers"; "in"; "December"]%string.
Definition sent2 : list string := ["they"; "can"; "fish"]%string.

Definition sent3 : list string := ["fish"; "they"; "can"]%string.

(** ** Specification vocabulary *)

(** Column [j] of a chart, as the set of its items. *)
Definition col (ch : Chart.t) (j : nat) : list State.t := nth j ch [].

(** The symbol after the dot, when there is one. *)
Definition next (st : State.t) : option Symbol :=
  nth_error (Production.rhs (State.production st)) (State.dot st).

(** Number of items in the whole chart. *)
Definition size (ch : Chart.t) : nat := list_sum (map (@List.length State.t) ch).

(** The items of the Earley sets, independently of any chart: the least
    family closed under seeding, completion, prediction and scanning. *)
Inductive Derivable (g : Grammar.t) (tokens : list string) : nat -> State.t -> Prop :=
| D_seed : forall prod,
    In prod (Grammar.productions_for g (Grammar.start g)) ->
    Derivable g tokens 0 (State.mk prod 0 0)
| D_complete : forall i st prev,
    Derivable g tokens i st ->
    next st = None ->
    Derivable g tokens (State.start st) prev ->
    next prev = Some (Nt (Production.lhs (State.production st))) ->
    Derivable g tokens i (State.advance prev)
| D_predict : forall i st A prod,
    Derivable g tokens i st ->
    next st = Some (Nt A) ->
    In prod (Grammar.productions_for g A) ->
    Derivable g tokens i (State.mk prod 0 i)
| D_scan : forall i st a,
    Derivable g tokens i st ->
    next st = Some (Tok a) ->
    nth_error tokens i = Some a ->
    Derivable g tokens (i + 1) (State.advance st).

(** What visiting [st] in column [i] asks to be present, reading chart [ch]. *)
Inductive conseq (g : Grammar.t) (tokens : list string) (ch : Chart.t)
  (i : nat) (st : State.t) : nat -> State.t -> Prop :=
| conseq_complete : forall prev,
    next st = None ->
    In prev (col ch (State.start st)) ->
    next prev = Some (Nt (Production.lhs (State.production st))) ->
    conseq g tokens ch i st i (State.advance prev)
| conseq_predict : forall A prod,
    next st = Some (Nt A) ->
    In prod (Grammar.productions_for g A) ->
    conseq g tokens ch i st i (State.mk prod 0 i)
| conseq_scan : forall a,
    next st = Some (Tok a) ->
    nth_error tokens i = Some a ->
    conseq g tokens ch i st (i + 1) (State.advance st).

(** Column [i] is closed: a further pass over it would add nothing. *)
Definition closed (g : Grammar.t) (tokens : list string) (ch : Chart.t) (i : nat)
  : Prop :=
  forall st idx item,
    In st (col ch i) -> conseq g tokens ch i st idx item -> In item (col ch idx).

(** The bounds on the fields of an item of column [i]. *)
Definition item_ok (g : Grammar.t) (i : nat) (st : State.t) : Prop :=
  In (State.production st)
     (Grammar.productions_for g (Production.lhs (State.production st)))
  /\ State.dot st <= List.length (Production.rhs (State.production st))
  /\ State.start st <= i.

Definition items_ok (g : Grammar.t) (ch : Chart.t) : Prop :=
  forall j st, In st (col ch j) -> item_ok g j st.

(** Every item that can ever sit in column [i]. *)
Definition universe (g : Grammar.t) (i : nat) : list State.t :=
  flat_map (fun nt =>
    flat_map (fun prod =>
      flat_map (fun d => map (fun o => State.mk prod d o) (seq 0 (i + 1)))
               (seq 0 (List.length (Production.rhs prod) + 1)))
      (Grammar.productions_for g nt))
    NonTerminal.all.

(** Room in a chart of [n + 1] columns. *)
Definition capacity (g : Grammar.t) (n : nat) : nat :=
  list_sum (map (fun j => List.length (universe g j)) (seq 0 (n + 1))).

(** Passes that always suffice for one column. *)
Definition enough (g : Grammar.t) (tokens : list string) : nat :=
  capacity g (List.length tokens) + 1.

(** What holds of a chart all along a parse. *)
Record Inv (g : Grammar.t) (tokens : list string) (ch : Chart.t) : Prop := mkInv {
  inv_length : List.length ch = List.length tokens + 1;
  inv_nodup : forall j, NoDup (col ch j);
  inv_sound : forall j st, In st (col ch j) -> Derivable g tokens j st
}.

(** Columns only grow. *)
Definition grows (ch ch' : Chart.t) : Prop :=
  List.length ch' = List.length ch /\ forall j, incl (col ch j) (col ch' j).

(** Columns to the left of [i] are untouched. *)
Definition same_below (i : nat) (ch ch' : Chart.t) : Prop :=
  forall j, j < i -> col ch' j = col ch j.

(** The value handed back by a call of [parse]. *)
Definition returns (o : Order) (g : Grammar.t) (tokens : list string) (r : nat)
  : Prop :=
  exists fuel, EarleyParser.parse fuel o g tokens = Done r.

(** A computation that does not raise, and runs out of fuel only when
    [short] of it. *)
Definition safe {A : Type} (post : A -> Prop) (short : Prop) (c : outcome A) : Prop :=
  match c with
  | Done a => post a
  | Raise _ => False
  | OutOfFuel => short
  end.

(** The state of the [for] loop of a pass over column [i] that began with
    chart [ch0]: the flag is up exactly when something was inserted. *)
Definition Rel (g : Grammar.t) (tokens : list string) (i : nat) (ch0 : Chart.t)
  (s : EarleyParser.loop_state) : Prop :=
  Inv g tokens (fst s)
  /\ grows ch0 (fst s)
  /\ same_below i ch0 (fst s)
  /\ (snd s = false -> fst s = ch0)
  /\ (snd s = true -> size ch0 < size (fst s)).

Definition step_grows (s s' : EarleyParser.loop_state) : Prop :=
  grows (fst s) (fst s').

(** Column 0 holds the start items. *)
Definition seeded (g : Grammar.t) (ch : Chart.t) : Prop :=
  forall prod, In prod (Grammar.productions_for g (Grammar.start g)) ->
               In (State.mk prod 0 0) (col ch 0).

(** A finished chart: every column closed, on top of the seed. *)
Record Final (g : Grammar.t) (tokens : list string) (ch : Chart.t) : Prop := mkFinal {
  final_inv : Inv g tokens ch;
  final_seeded : seeded g ch;
  final_closed : forall j, j <= List.length tokens -> closed g tokens ch j
}.

(** The bounds on the dot and the origin of the items of a chart. *)
Definition bounded (ch : Chart.t) : Prop :=
  forall j st, In st (col ch j) ->
    State.dot st <= List.length (Production.rhs (State.production st))
    /\ State.start st <= j.

(** A grammar with an empty right-hand side: [S -> | NP VP], the rest as in
    [RULES]. *)
Definition nullable_grammar : Grammar.t :=
  Grammar.mk
    (fun nt => match nt with
               | NonTerminal.S => Some [[]; [Nt NonTerminal.NP; Nt NonTerminal.VP]]
               | _ => RULES nt
               end)
    NonTerminal.S.

(** A caller reads the count as a truth value. *)
Definition accepts (o : Order) (g : Grammar.t) (tokens : list string) : Prop :=
  exists r, returns o g tokens r /\ r <> 0.

Definition rejects (o : Order) (g : Grammar.t) (tokens : list string) : Prop :=
  returns o g tokens 0.

(** ** The language of a grammar

    A symbol yields a token sequence: a terminal yields itself, a nonterminal
    yields what one of its alternatives yields, a sequence of symbols yields
    the concatenation of what its symbols yield. *)
Inductive derives (g : Grammar.t) : Symbol -> list string -> Prop :=
| derives_tok : forall a, derives g (Tok a) [a]
| derives_nt : forall A rhs w,
    In rhs (Grammar.alternatives g A) -> derives_seq g rhs w -> derives g (Nt A) w
with derives_seq (g : Grammar.t) : list Symbol -> list string -> Prop :=
| derives_nil : derives_seq g [] []
| derives_cons : forall X rest w1 w2,
    derives g X w1 -> derives_seq g rest w2 -> derives_seq g (X :: rest) (w1 ++ w2).

Scheme derives_mut := Minimality for derives Sort Prop
  with derives_seq_mut := Minimality for derives_seq Sort Prop.

Combined Scheme derives_both from derives_mut, derives_seq_mut.

(** [tokens[j:i]] *)
Definition span (tokens : list string) (j i : nat) : list string :=
  firstn (i - j) (skipn j tokens).

(** The symbols of an item before its dot. *)
Definition matched (st : State.t) : list Symbol :=
  firstn (State.dot st) (Production.rhs (State.production st)).

(** The terminal [a] is written somewhere in the rules. *)
Definition occurs (g : Grammar.t) (a : string) : Prop :=
  exists A rhs, In rhs (Grammar.alternatives g A) /\ In (Tok a) rhs.

(** Number of dotted rules of the grammar. *)
Definition dotted (g : Grammar.t) : nat :=
  list_sum (map (fun nt =>
     list_sum (map (fun prod => List.length (Production.rhs prod) + 1)
                   (Grammar.productions_for g nt)))
     NonTerminal.all).

(** From [ch] to [ch'] the columns only grew, and those selected by [keep]
    did not change at all. *)
Definition frame (keep : nat -> Prop) (ch ch' : Chart.t) : Prop :=
  grows ch ch' /\ forall j, keep j -> col ch' j = col ch j.

(** The state [s] of a loop that started from chart [ch] with flag [flag0]:
    the chart changed within the frame only, the flag was never lowered, it
    is down only if nothing was inserted, and if it went up then something
    was inserted. *)
Definition tracks (keep : nat -> Prop) (ch : Chart.t) (flag0 : bool)
  (s : EarleyParser.loop_state) : Prop :=
  frame keep ch (fst s)
  /\ (snd s = flag0 \/ snd s = true)
  /\ (snd s = false -> fst s = ch)
  /\ (flag0 = false -> snd s = true -> size ch < size (fst s)).

(** ** Printing ([__repr__])

    The texts built by [Production.__repr__] and [State.__repr__]. *)

From Stdlib Require Import Ascii DecimalString.

(** [nt.name] *)
Definition NonTerminal_name (nt : NonTerminal.t) : string :=
  match nt with
  | NonTerminal.S => "S"
  | NonTerminal.NP => "NP"
  | NonTerminal.VP => "VP"
  | NonTerminal.PP => "PP"
  | NonTerminal.N => "N"
  | NonTerminal.V => "V"
  | NonTerminal.P => "P"
  end%string.

(** [sym.name if isinstance(sym, NonTerminal) else sym] *)
Definition symbol_text (sym : Symbol) : string :=
  match sym with
  | Nt A => NonTerminal_name A
  | Tok s => s
  end.

(** [str(n)] for a non-negative integer. *)
Definition str_int (n : nat) : string := NilZero.string_of_uint (Nat.to_uint n).

(** [l.insert(i, x)] for a non-negative index: past the end it appends. *)
Definition list_insert {A : Type} (i : nat) (x : A) (l : list A) : list A :=
  firstn i l ++ x :: skipn i l.

Definition Production_repr (self : Production.t) : string :=
  (NonTerminal_name (Production.lhs self) ++ " -> "
   ++ String.concat " " (map symbol_text (Production.rhs self)))%string.

Definition State_repr (self : State.t) : string :=
  ("[" ++ NonTerminal_name (Production.lhs (State.production self)) ++ " -> "
   ++ String.concat " "
        (map symbol_text
           (list_insert (State.dot self) (Tok " . ")
              (Production.rhs (State.production self))))
   ++ ", from " ++ str_int (State.start self) ++ "]")%string.

(** A text without blanks. *)
Fixpoint space_free (s : string) : Prop :=
  match s with
  | EmptyString => True
  | String c s' => c <> " "%char /\ space_free s'
  end.

(** A symbol whose text is a single word that names it: any nonterminal, or a
    terminal that is not empty, has no blank and is not the name of a
    nonterminal. *)
Definition plain (sym : Symbol) : Prop :=
  match sym with
  | Nt _ => True
  | Tok s => s <> EmptyString /\ space_free s /\ forall A, s <> NonTerminal_name A
  end.

(** ** Python integers as indices

    [dot], [start] and column indices are Python [int]s.  [parse] only ever
    builds non-negative ones, which is what [State] and [Chart] above model;
    the definitions below keep the sign, for callers that build items or
    index charts themselves. *)

From Stdlib Require Import ZArith.

(** [xs[i]] for any integer [i]: a negative index counts from the end. *)
Definition index_int {A : Type} (xs : list A) (i : Z) : outcome A :=
  let n := Z.of_nat (List.length xs) in
  let j := if (i <? 0)%Z then (i + n)%Z else i in
  if ((j <? 0) || (n <=? j))%Z then Raise IndexError
  else index xs (Z.to_nat j).

(** The position that [xs[i]] designates in a list of length [n]. *)
Definition resolve (n : nat) (i : Z) : nat :=
  Z.to_nat (if (i <? 0)%Z then (i + Z.of_nat n)%Z else i).

Module IntState.
Record t : Type := mk { production : Production.t; dot : Z; start : Z }.

Definition is_complete (self : t) : bool :=
  (Z.of_nat (List.length (Production.rhs (production self))) <=? dot self)%Z.

Definition next_symbol (self : t) : outcome (option Symbol) :=
  if is_complete self then Done None
  else sym <- index_int (Production.rhs (production self)) (dot self) ;; Done (Some sym).

Definition advance (self : t) : t :=
  mk (production self) (dot self + 1) (start self).

(** The items with non-negative fields. *)
Definition of_state (st : State.t) : t :=
  mk (State.production st) (Z.of_nat (State.dot st)) (Z.of_nat (State.start st)).
End IntState.

Module IntChart.
Definition getitem (self : Chart.t) (idx : Z) : outcome (list State.t) :=
  index_int self idx.

Definition add (self : Chart.t) (idx : Z) (state : State.t) : outcome (Chart.t * bool) :=
  column <- index_int self idx ;;
  if negb (Chart.mem state column)
  then Done (store self (resolve (List.length self) idx) (column ++ [state]), true)
  else Done (self, false).
End IntChart.

(** * Proofs *)

(** ** Lists, indexing and stores *)

Lemma index_col (ch : Chart.t) (j : nat) :
  j < List.length ch -> index ch j = Done (col ch j).
Proof.
  intros H. unfold index, col.
  destruct (nth_error ch j) eqn:E.
  - now rewrite (nth_error_nth _ _ _ E).
  - apply nth_error_None in E. lia.
Qed.

Lemma index_raises (A : Type) (xs : list A) (j : nat) :
  List.length xs <= j -> index xs j = Raise IndexError.
Proof.
  intros H. unfold index. apply nth_error_None in H. now rewrite H.
Qed.

Lemma length_store (A : Type) (xs : list A) (i : nat) (v : A) :
  List.length (store xs i v) = List.length xs.
Proof.
  revert i. induction xs as [|x xs IH]; intros [|i]; simpl; auto.
Qed.

Lemma col_store_same (ch : Chart.t) (i : nat) (v : list State.t) :
  i < List.length ch -> col (store ch i v) i = v.
Proof.
  unfold col. revert i. induction ch as [|c ch IH]; intros [|i] H; simpl in *;
    try lia; auto. apply IH. lia.
Qed.

Lemma col_store_other (ch : Chart.t) (i j : nat) (v : list State.t) :
  j <> i -> col (store ch i v) j = col ch j.
Proof.
  unfold col. revert i j. induction ch as [|c ch IH]; intros [|i] [|j] H; simpl;
    try congruence; auto.
Qed.

Lemma size_store (ch : Chart.t) (i : nat) (v : list State.t) :
  i < List.length ch ->
  size (store ch i v) + List.length (col ch i) = size ch + List.length v.
Proof.
  unfold size, col. revert i. induction ch as [|c ch IH]; intros [|i] H; simpl in *;
    try lia. specialize (IH i). lia.
Qed.

Lemma col_beyond (ch : Chart.t) (j : nat) :
  List.length ch <= j -> col ch j = [].
Proof. intros H. unfold col. now apply nth_overflow. Qed.

Lemma col_init (n j : nat) : col (Chart.init n) j = [].
Proof.
  unfold col, Chart.init. destruct (Nat.lt_ge_cases j (n + 1)) as [H|H].
  - now rewrite nth_repeat_lt.
  - apply nth_overflow. now rewrite repeat_length.
Qed.

Lemma for_each_app (X S : Type) (xs ys : list X) (body : X -> S -> outcome S) (s : S) :
  for_each (xs ++ ys) body s = (s' <- for_each xs body s ;; for_each ys body s').
Proof.
  revert s. induction xs as [|x xs IH]; intros s; simpl; auto.
  destruct (body x s); simpl; auto.
Qed.

(** A loop whose body keeps [I], moves along [R] and establishes [T x] for
    the element it visits ends in a state where [T] holds of every element. *)
Lemma for_each_ok (X S : Type) (I : S -> Prop) (R : S -> S -> Prop)
  (T : X -> S -> Prop) (xs : list X) (body : X -> S -> outcome S) :
  (forall s, R s s) ->
  (forall s1 s2 s3, R s1 s2 -> R s2 s3 -> R s1 s3) ->
  (forall x s s', T x s -> R s s' -> T x s') ->
  (forall x s, In x xs -> I s ->
     exists s', body x s = Done s' /\ I s' /\ R s s' /\ T x s') ->
  forall s, I s ->
    exists s', for_each xs body s = Done s' /\ I s' /\ R s s'
               /\ forall x, In x xs -> T x s'.
Proof.
  intros Rrefl Rtrans Tmono. induction xs as [|x xs IH]; intros Hbody s Hs; simpl.
  - exists s. repeat split; auto. intros x [].
  - destruct (Hbody x s (or_introl eq_refl) Hs) as (s1 & E1 & I1 & R1 & T1).
    rewrite E1. simpl.
    destruct (IH (fun y s0 Hy => Hbody y s0 (or_intror Hy)) s1 I1)
      as (s2 & E2 & I2 & R2 & T2).
    exists s2. repeat split; eauto.
    intros y [<-|Hy]; eauto.
Qed.

(** ** Items *)

Lemma next_symbol_done (st : State.t) : State.next_symbol st = Done (next st).
Proof.
  unfold State.next_symbol, State.is_complete, next, index.
  destruct (Nat.leb_spec (List.length (Production.rhs (State.production st)))
                         (State.dot st)) as [H|H].
  - apply nth_error_None in H. now rewrite H.
  - destruct (nth_error _ _) eqn:E; simpl; auto.
    apply nth_error_None in E. lia.
Qed.

Lemma next_some_lt (st : State.t) (x : Symbol) :
  next st = Some x ->
  State.dot st < List.length (Production.rhs (State.production st)).
Proof.
  unfold next. intros H. apply nth_error_Some. congruence.
Qed.

Lemma next_none_complete (st : State.t) :
  next st = None <-> State.is_complete st = true.
Proof.
  unfold next, State.is_complete. rewrite nth_error_None, Nat.leb_le. tauto.
Qed.

Lemma sym_is_true (sym : option Symbol) (A : NonTerminal.t) :
  EarleyParser.sym_is sym A = true <-> sym = Some (Nt A).
Proof.
  unfold EarleyParser.sym_is. destruct sym as [[B|s]|]; try (split; congruence).
  destruct (NonTerminal.eq_dec B A); split; congruence.
Qed.

Lemma mem_true (st : State.t) (c : list State.t) :
  Chart.mem st c = true <-> In st c.
Proof.
  unfold Chart.mem. destruct (in_dec State.eq_dec st c); split; auto; discriminate.
Qed.

Lemma in_productions_for (g : Grammar.t) (A : NonTerminal.t) (prod : Production.t) :
  In prod (Grammar.productions_for g A) -> Production.lhs prod = A.
Proof.
  unfold Grammar.productions_for. rewrite in_map_iff. intros (rhs & <- & _). reflexivity.
Qed.

Lemma all_nonterminals (A : NonTerminal.t) : In A NonTerminal.all.
Proof. destruct A; simpl; tauto. Qed.

Lemma in_universe (g : Grammar.t) (i : nat) (st : State.t) :
  item_ok g i st -> In st (universe g i).
Proof.
  intros (Hp & Hd & Hs). unfold universe.
  apply in_flat_map. exists (Production.lhs (State.production st)).
  split; [apply all_nonterminals|].
  apply in_flat_map. exists (State.production st). split; [assumption|].
  apply in_flat_map. exists (State.dot st). split; [apply in_seq; lia|].
  apply in_map_iff. exists (State.start st). split; [now destruct st|apply in_seq; lia].
Qed.

Lemma derivable_ok (g : Grammar.t) (tokens : list string) (i : nat) (st : State.t) :
  Derivable g tokens i st -> item_ok g i st /\ i <= List.length tokens.
Proof.
  induction 1 as [prod Hp | i st prev _ [IH1 L1] Hn _ [IH2 L2] Hp
                 | i st A prod _ [IH L] Hn Hp | i st a _ [IH L] Hn Ht].
  - split; [|lia]. unfold item_ok; simpl.
    rewrite (in_productions_for _ _ _ Hp). repeat split; auto; lia.
  - split; [|assumption]. destruct IH1 as (_ & _ & S1). destruct IH2 as (P2 & _ & S2).
    apply next_some_lt in Hp. unfold item_ok; simpl. repeat split; auto; lia.
  - split; [|assumption]. unfold item_ok; simpl.
    rewrite (in_productions_for _ _ _ Hp). repeat split; auto; lia.
  - assert (i < List.length tokens) by (apply nth_error_Some; congruence).
    split; [|lia]. destruct IH as (P1 & _ & S1).
    apply next_some_lt in Hn. unfold item_ok; simpl. repeat split; auto; lia.
Qed.

(** ** Growth of charts *)

Lemma grows_refl (ch : Chart.t) : grows ch ch.
Proof. split; auto. intros j. apply incl_refl. Qed.

Lemma grows_trans (ch1 ch2 ch3 : Chart.t) :
  grows ch1 ch2 -> grows ch2 ch3 -> grows ch1 ch3.
Proof.
  intros [L1 I1] [L2 I2]. split; [congruence|].
  intros j. eapply incl_tran; eauto.
Qed.

Lemma same_below_trans (i : nat) (ch1 ch2 ch3 : Chart.t) :
  same_below i ch1 ch2 -> same_below i ch2 ch3 -> same_below i ch1 ch3.
Proof. intros H1 H2 j Hj. rewrite H2, H1; auto. Qed.

Lemma same_below_le (i k : nat) (ch ch' : Chart.t) :
  k <= i -> same_below i ch ch' -> same_below k ch ch'.
Proof. intros Hk H j Hj. apply H. lia. Qed.

Lemma conseq_grows (g : Grammar.t) (tokens : list string) (ch ch' : Chart.t)
  (i : nat) (st : State.t) (idx : nat) (item : State.t) :
  grows ch ch' -> conseq g tokens ch i st idx item -> conseq g tokens ch' i st idx item.
Proof.
  intros [_ Hincl] H. destruct H.
  - eapply conseq_complete; eauto. now apply Hincl.
  - eapply conseq_predict; eauto.
  - eapply conseq_scan; eauto.
Qed.

Lemma conseq_sound (g : Grammar.t) (tokens : list string) (ch : Chart.t)
  (i : nat) (st : State.t) (idx : nat) (item : State.t) :
  Inv g tokens ch -> Derivable g tokens i st ->
  conseq g tokens ch i st idx item -> Derivable g tokens idx item.
Proof.
  intros HI Hst H. destruct H.
  - eapply D_complete; eauto. now apply (inv_sound HI).
  - eapply D_predict; eauto.
  - eapply D_scan; eauto.
Qed.

Lemma sum_lengths_le (l : list (list State.t)) (f : nat -> nat) (k : nat) :
  (forall j, j < List.length l -> List.length (nth j l []) <= f (k + j)) ->
  list_sum (map (@List.length State.t) l) <= list_sum (map f (seq k (List.length l))).
Proof.
  revert k. induction l as [|c l IH]; intros k H; simpl; [lia|].
  assert (H0 := H 0). simpl in H0. rewrite Nat.add_0_r in H0.
  assert (IH' := IH (Datatypes.S k)).
  assert (list_sum (map (@List.length State.t) l)
          <= list_sum (map f (seq (Datatypes.S k) (List.length l)))).
  { apply IH'. intros j Hj. specialize (H (Datatypes.S j)). simpl in H.
    rewrite Nat.add_succ_r in H. apply H. lia. }
  lia.
Qed.

Lemma size_le_capacity (g : Grammar.t) (tokens : list string) (ch : Chart.t) :
  Inv g tokens ch -> size ch <= capacity g (List.length tokens).
Proof.
  intros HI. unfold size, capacity. rewrite <- (inv_length HI).
  apply sum_lengths_le. intros j _. simpl.
  apply NoDup_incl_length; [apply (inv_nodup HI)|].
  intros st Hst. apply in_universe.
  apply (derivable_ok (inv_sound HI _ _ Hst)).
Qed.

Lemma inv_init (g : Grammar.t) (tokens : list string) :
  Inv g tokens (Chart.init (List.length tokens)).
Proof.
  split.
  - unfold Chart.init. apply repeat_length.
  - intros j. rewrite col_init. constructor.
  - intros j st. rewrite col_init. intros [].
Qed.

(** ** [Chart.add] *)

Lemma add_done (ch : Chart.t) (idx : nat) (st : State.t) :
  idx < List.length ch ->
  Chart.add ch idx st =
  Done (if Chart.mem st (col ch idx) then (ch, false)
        else (store ch idx (col ch idx ++ [st]), true)).
Proof.
  intros H. unfold Chart.add. rewrite (index_col _ H). simpl.
  now destruct (Chart.mem st (col ch idx)).
Qed.

Lemma inv_store (g : Grammar.t) (tokens : list string) (ch : Chart.t)
  (idx : nat) (item : State.t) :
  Inv g tokens ch -> Derivable g tokens idx item -> ~ In item (col ch idx) ->
  Inv g tokens (store ch idx (col ch idx ++ [item])).
Proof.
  intros HI Hd Hn.
  assert (Hlt : idx < List.length ch).
  { rewrite (inv_length HI). apply derivable_ok in Hd. lia. }
  split.
  - rewrite length_store. apply (inv_length HI).
  - intros j. destruct (Nat.eq_dec j idx) as [->|Hj].
    + rewrite col_store_same by assumption.
      apply NoDup_app; [apply (inv_nodup HI)|repeat constructor; intros []|].
      intros x Hx [<-|[]]. contradiction.
    + rewrite col_store_other by assumption. apply (inv_nodup HI).
  - intros j st. destruct (Nat.eq_dec j idx) as [->|Hj].
    + rewrite col_store_same by assumption. rewrite in_app_iff.
      intros [H|[<-|[]]]; auto. now apply (inv_sound HI).
    + rewrite col_store_other by assumption. apply (inv_sound HI).
Qed.

Lemma grows_store (ch : Chart.t) (idx : nat) (item : State.t) :
  idx < List.length ch -> grows ch (store ch idx (col ch idx ++ [item])).
Proof.
  intros Hlt. split; [apply length_store|].
  intros j. destruct (Nat.eq_dec j idx) as [->|Hj].
  - rewrite col_store_same by assumption. apply incl_appl, incl_refl.
  - rewrite col_store_other by assumption. apply incl_refl.
Qed.

Lemma rel_size (g : Grammar.t) (tokens : list string) (i : nat) (ch0 : Chart.t)
  (s : EarleyParser.loop_state) :
  Rel g tokens i ch0 s -> size ch0 <= size (fst s).
Proof.
  intros (_ & _ & _ & Hf & Ht). destruct (snd s).
  - specialize (Ht eq_refl). lia.
  - rewrite (Hf eq_refl). lia.
Qed.

Lemma add_flag_ok (g : Grammar.t) (tokens : list string) (i : nat) (ch0 : Chart.t)
  (s : EarleyParser.loop_state) (idx : nat) (item : State.t) :
  Rel g tokens i ch0 s -> i <= idx -> Derivable g tokens idx item ->
  exists s', EarleyParser.add_flag idx item s = Done s'
             /\ Rel g tokens i ch0 s' /\ step_grows s s'
             /\ In item (col (fst s') idx).
Proof.
  intros HR Hi Hd. assert (Hsz := rel_size HR).
  destruct HR as (HI & HG & HB & Hf & Ht).
  assert (Hlt : idx < List.length (fst s)).
  { rewrite (inv_length HI). apply derivable_ok in Hd. lia. }
  unfold EarleyParser.add_flag. rewrite add_done by assumption.
  destruct (Chart.mem item (col (fst s) idx)) eqn:E; simpl.
  - exists (fst s, snd s). apply mem_true in E.
    split; [reflexivity|]. split; [|split].
    + exact (conj HI (conj HG (conj HB (conj Hf Ht)))).
    + apply grows_refl.
    + exact E.
  - assert (Hn : ~ In item (col (fst s) idx)).
    { intros Hin. apply mem_true in Hin. congruence. }
    exists (store (fst s) idx (col (fst s) idx ++ [item]), true).
    split; [reflexivity|]. split; [|split].
    + split; [|split; [|split; [|split]]]; simpl.
      * now apply inv_store.
      * eapply grows_trans; [exact HG|now apply grows_store].
      * intros j Hj. rewrite col_store_other by lia. now apply HB.
      * discriminate.
      * intros _. assert (Hs := @size_store (fst s) idx (col (fst s) idx ++ [item]) Hlt).
        rewrite length_app in Hs. simpl in Hs. lia.
    + now apply grows_store.
    + simpl. rewrite col_store_same by assumption. apply in_or_app. right. now left.
Qed.

(** ** The three inference steps *)

(** Answer a goal [exists s', c = Done s' /\ Rel .. s' /\ step_grows s s' /\ _]
    with [s'], leaving the last conjunct. *)
Ltac reached s' :=
  exists s'; split; [first [assumption | reflexivity]
                    |split; [assumption|split; [first [assumption | apply grows_refl]|]]].

Section Handlers.
Variables (o : Order) (g : Grammar.t) (tokens : list string).
Variables (i : nat) (ch0 : Chart.t).

Let step_refl : forall s : EarleyParser.loop_state, step_grows s s :=
  fun s => grows_refl (fst s).

Let step_trans : forall s1 s2 s3 : EarleyParser.loop_state,
    step_grows s1 s2 -> step_grows s2 s3 -> step_grows s1 s3 :=
  fun s1 s2 s3 => @grows_trans (fst s1) (fst s2) (fst s3).

Lemma completer_ok (st : State.t) (s : EarleyParser.loop_state) :
  Rel g tokens i ch0 s -> Derivable g tokens i st -> next st = None ->
  exists s', EarleyParser.completer o i st s = Done s'
             /\ Rel g tokens i ch0 s' /\ step_grows s s'
             /\ forall prev, In prev (col (fst s) (State.start st)) ->
                  next prev = Some (Nt (Production.lhs (State.production st))) ->
                  In (State.advance prev) (col (fst s') i).
Proof.
  intros HR Hst Hn.
  assert (HI : Inv g tokens (fst s)) by apply HR.
  destruct (derivable_ok Hst) as [(_ & _ & Hs) Hi].
  unfold EarleyParser.completer, Chart.getitem.
  rewrite index_col by (rewrite (inv_length HI); lia). simpl.
  destruct (@for_each_ok State.t EarleyParser.loop_state
              (Rel g tokens i ch0) step_grows
              (fun prev s' =>
                 next prev = Some (Nt (Production.lhs (State.production st))) ->
                 In (State.advance prev) (col (fst s') i))
              (o (col (fst s) (State.start st)))
              (fun prev s' =>
                 psym <- State.next_symbol prev ;;
                 if EarleyParser.sym_is psym (Production.lhs (State.production st))
                 then EarleyParser.add_flag i (State.advance prev) s'
                 else Done s')
              step_refl step_trans) with s as (s' & E & HR' & HG' & HT); auto.
  - intros prev s1 s2 H [_ Hincl] Hp. apply Hincl. auto.
  - intros prev s1 Hin HR1. rewrite next_symbol_done. simpl.
    apply (Permutation_in _ (iter_perm o _)) in Hin.
    destruct (EarleyParser.sym_is (next prev) _) eqn:E.
    + apply sym_is_true in E.
      destruct (@add_flag_ok g tokens i ch0 s1 i (State.advance prev) HR1 (le_n i))
        as (s2 & E2 & HR2 & HG2 & Hin2).
      { eapply D_complete; eauto. now apply (inv_sound HI). }
      exists s2. auto.
    + reached s1. intros Hp. apply sym_is_true in Hp. congruence.
  - reached s'. intros prev Hin. apply HT.
    apply (Permutation_in _ (Permutation_sym (iter_perm o _))). exact Hin.
Qed.

Lemma predictor_ok (st : State.t) (A : NonTerminal.t) (s : EarleyParser.loop_state) :
  Rel g tokens i ch0 s -> Derivable g tokens i st -> next st = Some (Nt A) ->
  exists s', EarleyParser.predictor g i A s = Done s'
             /\ Rel g tokens i ch0 s' /\ step_grows s s'
             /\ forall prod, In prod (Grammar.productions_for g A) ->
                  In (State.mk prod 0 i) (col (fst s') i).
Proof.
  intros HR Hst Hn. unfold EarleyParser.predictor.
  apply (@for_each_ok Production.t EarleyParser.loop_state
           (Rel g tokens i ch0) step_grows
           (fun prod s' => In (State.mk prod 0 i) (col (fst s') i))); auto.
  - intros prod s1 s2 H [_ Hincl]. now apply Hincl.
  - intros prod s1 Hin HR1.
    apply (@add_flag_ok g tokens i ch0 s1 i (State.mk prod 0 i) HR1 (le_n i)).
    eapply D_predict; eauto.
Qed.

Lemma scanner_ok (st : State.t) (a : string) (s : EarleyParser.loop_state) :
  Rel g tokens i ch0 s -> Derivable g tokens i st -> next st = Some (Tok a) ->
  exists s', EarleyParser.scanner tokens i st a s = Done s'
             /\ Rel g tokens i ch0 s' /\ step_grows s s'
             /\ (nth_error tokens i = Some a ->
                 In (State.advance st) (col (fst s') (i + 1))).
Proof.
  intros HR Hst Hn. unfold EarleyParser.scanner.
  destruct (Nat.ltb_spec i (List.length tokens)) as [Hlt|Hge].
  - unfold index. destruct (nth_error tokens i) as [tok|] eqn:E.
    2:{ apply nth_error_None in E. lia. }
    simpl. destruct (String.eqb_spec tok a) as [->|Hne].
    + destruct (@add_flag_ok g tokens i ch0 s (i + 1) (State.advance st) HR)
        as (s' & E' & HR' & HG' & Hin'); [lia|eapply D_scan; eauto|].
      exists s'. auto.
    + reached s. congruence.
  - reached s. intros E.
    assert (i < List.length tokens) by (apply nth_error_Some; congruence). lia.
Qed.

Lemma visit_ok (st : State.t) (s : EarleyParser.loop_state) :
  Rel g tokens i ch0 s -> Derivable g tokens i st ->
  exists s', EarleyParser.visit o g tokens i st s = Done s'
             /\ Rel g tokens i ch0 s' /\ step_grows s s'
             /\ forall idx item, conseq g tokens (fst s) i st idx item ->
                  In item (col (fst s') idx).
Proof.
  intros HR Hst. unfold EarleyParser.visit. rewrite next_symbol_done. simpl.
  destruct (next st) as [[A|a]|] eqn:Hn.
  - destruct (predictor_ok HR Hst Hn) as (s' & E & HR' & HG' & HT).
    reached s'.
    intros idx item H. destruct H; try congruence.
    apply HT. congruence.
  - destruct (scanner_ok HR Hst Hn) as (s' & E & HR' & HG' & HT).
    reached s'.
    intros idx item H. destruct H; try congruence.
    apply HT. congruence.
  - destruct (completer_ok HR Hst Hn) as (s' & E & HR' & HG' & HT).
    reached s'.
    intros idx item H. destruct H; try congruence.
    now apply HT.
Qed.
End Handlers.

(** ** Passes and the closure of a column *)

Lemma safe_impl (A : Type) (post post' : A -> Prop) (short short' : Prop)
  (c : outcome A) :
  (forall a, post a -> post' a) -> (short -> short') ->
  safe post short c -> safe post' short' c.
Proof. destruct c; simpl; auto. Qed.

Lemma safe_bind (A B : Type) (post : A -> Prop) (post' : B -> Prop) (short : Prop)
  (c : outcome A) (k : A -> outcome B) :
  safe post short c -> (forall a, post a -> safe post' short (k a)) ->
  safe post' short (a <- c ;; k a).
Proof. destruct c; simpl; auto. Qed.

Lemma rel_start (g : Grammar.t) (tokens : list string) (i : nat) (ch : Chart.t) :
  Inv g tokens ch -> Rel g tokens i ch (ch, false).
Proof.
  intros HI. unfold Rel; simpl.
  split; [assumption|]. split; [apply grows_refl|].
  split; [intros j _; reflexivity|]. split; [reflexivity|discriminate].
Qed.

Section Closure.
Variables (o : Order) (g : Grammar.t) (tokens : list string).

Lemma pass_ok (i : nat) (ch : Chart.t) :
  Inv g tokens ch -> i <= List.length tokens ->
  exists s', EarleyParser.pass o g tokens i ch = Done s'
             /\ Rel g tokens i ch s'
             /\ forall st idx item, In st (col ch i) ->
                  conseq g tokens ch i st idx item -> In item (col (fst s') idx).
Proof.
  intros HI Hi. unfold EarleyParser.pass, Chart.getitem.
  rewrite index_col by (rewrite (inv_length HI); lia). simpl.
  destruct (@for_each_ok State.t EarleyParser.loop_state
              (Rel g tokens i ch) step_grows
              (fun st s' => forall idx item,
                   conseq g tokens ch i st idx item -> In item (col (fst s') idx))
              (o (col ch i)) (EarleyParser.visit o g tokens i))
    with (ch, false) as (s' & E & HR' & _ & HT).
  - intros s. apply grows_refl.
  - intros s1 s2 s3. apply grows_trans.
  - intros st s1 s2 H [_ Hincl] idx item Hc. apply Hincl. auto.
  - intros st s1 Hin HR1.
    apply (Permutation_in _ (iter_perm o _)) in Hin.
    destruct (@visit_ok o g tokens i ch st s1 HR1 (inv_sound HI _ _ Hin))
      as (s2 & E2 & HR2 & HG2 & HT2).
    reached s2. intros idx item Hc. apply HT2.
    eapply conseq_grows; [|exact Hc]. apply HR1.
  - now apply rel_start.
  - exists s'. split; [assumption|]. split; [assumption|].
    intros st idx item Hin. apply HT.
    apply (Permutation_in _ (Permutation_sym (iter_perm o _))). exact Hin.
Qed.

Lemma closure_safe (i fuel : nat) :
  i <= List.length tokens ->
  forall ch, Inv g tokens ch ->
    safe (fun ch' => Inv g tokens ch' /\ grows ch ch' /\ same_below i ch ch'
                     /\ closed g tokens ch' i
                     /\ EarleyParser.pass o g tokens i ch' = Done (ch', false))
         (size ch + fuel <= capacity g (List.length tokens))
         (EarleyParser.closure fuel o g tokens i ch).
Proof.
  intros Hi. induction fuel as [|fuel IH]; intros ch HI; simpl.
  - rewrite Nat.add_0_r. now apply size_le_capacity.
  - destruct (pass_ok HI Hi) as ([ch' changed] & E & HR & HT).
    rewrite E. simpl. destruct HR as (HI' & HG & HB & Hf & Ht). simpl in *.
    destruct changed.
    + specialize (Ht eq_refl).
      eapply safe_impl; [| |apply (IH ch' HI')].
      * intros ch2 (I2 & G2 & B2 & C2).
        split; [assumption|]. split; [eapply grows_trans; eauto|].
        split; [eapply same_below_trans; eauto|assumption].
      * lia.
    + simpl. rewrite (Hf eq_refl) in *.
      split; [assumption|]. split; [apply grows_refl|].
      split; [intros j _; reflexivity|]. split; [|assumption].
      intros st idx item Hin Hc. now apply (HT st).
Qed.

Lemma closed_preserved (j : nat) (ch ch' : Chart.t) :
  Inv g tokens ch -> closed g tokens ch j ->
  grows ch ch' -> same_below (j + 1) ch ch' -> closed g tokens ch' j.
Proof.
  intros HI HC HG HB st idx item Hin Hc.
  rewrite (HB j) in Hin by lia.
  apply HG. apply (HC st); auto.
  destruct Hc.
  - eapply conseq_complete; eauto.
    destruct (derivable_ok (inv_sound HI _ _ Hin)) as [(_ & _ & Hs) _].
    rewrite <- (HB (State.start st)) by lia. assumption.
  - eapply conseq_predict; eauto.
  - eapply conseq_scan; eauto.
Qed.

Lemma add_ok (ch : Chart.t) (idx : nat) (item : State.t) :
  Inv g tokens ch -> Derivable g tokens idx item ->
  exists ch' b, Chart.add ch idx item = Done (ch', b)
                /\ Inv g tokens ch' /\ grows ch ch' /\ In item (col ch' idx).
Proof.
  intros HI Hd.
  assert (Hlt : idx < List.length ch).
  { rewrite (inv_length HI). apply derivable_ok in Hd. lia. }
  rewrite add_done by assumption.
  destruct (Chart.mem item (col ch idx)) eqn:E.
  - exists ch, false. apply mem_true in E.
    split; [reflexivity|]. split; [assumption|]. split; [apply grows_refl|assumption].
  - assert (Hn : ~ In item (col ch idx)).
    { intros Hin. apply mem_true in Hin. congruence. }
    exists (store ch idx (col ch idx ++ [item])), true.
    split; [reflexivity|]. split; [now apply inv_store|].
    split; [now apply grows_store|].
    rewrite col_store_same by assumption. apply in_or_app. right. now left.
Qed.

Lemma seed_ok :
  exists ch, EarleyParser.seed g (Chart.init (List.length tokens)) = Done ch
             /\ Inv g tokens ch /\ seeded g ch.
Proof.
  unfold EarleyParser.seed.
  destruct (@for_each_ok Production.t Chart.t (Inv g tokens) grows
              (fun prod ch => In (State.mk prod 0 0) (col ch 0))
              (Grammar.productions_for g (Grammar.start g))
              (fun prod chart' =>
                 '(chart'', _) <- Chart.add chart' 0 (State.mk prod 0 0) ;;
                 Done chart''))
    with (Chart.init (List.length tokens)) as (ch & E & HI & _ & HT).
  - apply grows_refl.
  - apply grows_trans.
  - intros prod ch1 ch2 H [_ Hincl]. now apply Hincl.
  - intros prod ch1 Hin HI1.
    destruct (@add_ok ch1 0 (State.mk prod 0 0) HI1 (D_seed g tokens prod Hin))
      as (ch2 & b & E & HI2 & HG2 & Hin2).
    exists ch2. rewrite E. simpl. auto.
  - apply inv_init.
  - exists ch. auto.
Qed.

Lemma columns_safe (fuel k : nat) (ch0 : Chart.t) :
  k <= List.length tokens + 1 -> Inv g tokens ch0 ->
  safe (fun ch => Inv g tokens ch /\ grows ch0 ch
                  /\ forall j, j < k -> closed g tokens ch j)
       (fuel <= capacity g (List.length tokens))
       (for_each (seq 0 k)
          (fun i chart' => EarleyParser.closure fuel o g tokens i chart') ch0).
Proof.
  intros Hk HI0. induction k as [|k IH].
  - simpl. split; [assumption|]. split; [apply grows_refl|]. intros j Hj. lia.
  - rewrite seq_S, for_each_app. simpl.
    eapply safe_bind; [apply IH; lia|].
    intros ch1 (HI1 & HG1 & HC1). simpl.
    assert (Hk' : k <= List.length tokens) by lia.
    assert (H := @closure_safe k fuel Hk' ch1 HI1).
    destruct (EarleyParser.closure fuel o g tokens k ch1) as [ch2| |]; simpl in *.
    + destruct H as (HI2 & HG2 & HB2 & HC2 & _).
      split; [assumption|]. split; [eapply grows_trans; eauto|].
      intros j Hj. destruct (Nat.eq_dec j k) as [->|Hne]; auto.
      apply (@closed_preserved j ch1 ch2); auto.
      * apply HC1. lia.
      * eapply same_below_le; [|exact HB2]. lia.
    + assumption.
    + lia.
Qed.

Lemma fill_safe (fuel : nat) :
  safe (Final g tokens) (fuel <= capacity g (List.length tokens))
       (EarleyParser.fill fuel o g tokens).
Proof.
  unfold EarleyParser.fill.
  destruct seed_ok as (ch0 & E & HI0 & HS0). rewrite E. simpl.
  eapply safe_impl; [| |apply (@columns_safe fuel (List.length tokens + 1) ch0)];
    auto.
  intros ch (HI & HG & HC). split.
  - assumption.
  - intros prod Hp. apply HG. now apply HS0.
  - intros j Hj. apply HC. lia.
Qed.
End Closure.

(** ** The finished chart and the result *)

Lemma final_complete (g : Grammar.t) (tokens : list string) (F : Chart.t)
  (j : nat) (st : State.t) :
  Final g tokens F -> Derivable g tokens j st -> In st (col F j).
Proof.
  intros HF. induction 1 as [prod Hp | i st prev H1 IH1 Hn H2 IH2 Hp
                            | i st A prod H1 IH1 Hn Hp | i st a H1 IH1 Hn Ht].
  - now apply (final_seeded HF).
  - eapply (final_closed HF (proj2 (derivable_ok H1))); [exact IH1|].
    now apply conseq_complete.
  - eapply (final_closed HF (proj2 (derivable_ok H1))); [exact IH1|].
    now apply conseq_predict with A.
  - eapply (final_closed HF (proj2 (derivable_ok H1))); [exact IH1|].
    now apply conseq_scan with a.
Qed.

Lemma final_exact (g : Grammar.t) (tokens : list string) (F : Chart.t)
  (j : nat) (st : State.t) :
  Final g tokens F -> (In st (col F j) <-> Derivable g tokens j st).
Proof.
  intros HF. split.
  - apply (inv_sound (final_inv HF)).
  - now apply final_complete.
Qed.

Lemma final_perm (g : Grammar.t) (tokens : list string) (F1 F2 : Chart.t) (j : nat) :
  Final g tokens F1 -> Final g tokens F2 -> Permutation (col F1 j) (col F2 j).
Proof.
  intros H1 H2. apply NoDup_Permutation.
  - apply (inv_nodup (final_inv H1)).
  - apply (inv_nodup (final_inv H2)).
  - intros st. rewrite (final_exact j st H1), (final_exact j st H2). tauto.
Qed.

Lemma count_filter (g : Grammar.t) (column : list State.t) :
  EarleyParser.count g column
  = List.length (filter (EarleyParser.accepting g) column).
Proof.
  unfold EarleyParser.count. induction column as [|st l IH]; simpl; auto.
  destruct (EarleyParser.accepting g st); simpl; lia.
Qed.

Lemma count_perm (g : Grammar.t) (l l' : list State.t) :
  Permutation l l' -> EarleyParser.count g l = EarleyParser.count g l'.
Proof.
  intros H. unfold EarleyParser.count.
  induction H; simpl; try lia.
Qed.

Lemma accepting_true (g : Grammar.t) (st : State.t) :
  EarleyParser.accepting g st = true <->
  Production.lhs (State.production st) = Grammar.start g
  /\ State.start st = 0 /\ State.is_complete st = true.
Proof.
  unfold EarleyParser.accepting.
  rewrite !andb_true_iff, Nat.eqb_eq.
  destruct (NonTerminal.eq_dec _ _); intuition congruence.
Qed.

Lemma count_positive (g : Grammar.t) (column : list State.t) :
  EarleyParser.count g column <> 0 <->
  exists st, In st column /\ EarleyParser.accepting g st = true.
Proof.
  rewrite count_filter. split.
  - intros H. destruct (filter (EarleyParser.accepting g) column) as [|st l] eqn:E.
    + now simpl in H.
    + exists st. apply filter_In. rewrite E. now left.
  - intros (st & Hin & Hacc) H. apply length_zero_iff_nil in H.
    assert (Hf : In st (filter (EarleyParser.accepting g) column))
      by (apply filter_In; auto).
    rewrite H in Hf. destruct Hf.
Qed.

Lemma parse_safe (o : Order) (g : Grammar.t) (tokens : list string) (fuel : nat) :
  safe (fun r => exists F, EarleyParser.fill fuel o g tokens = Done F
                           /\ Final g tokens F
                           /\ r = EarleyParser.count g (col F (List.length tokens)))
       (fuel <= capacity g (List.length tokens))
       (EarleyParser.parse fuel o g tokens).
Proof.
  unfold EarleyParser.parse.
  assert (H := fill_safe o g tokens fuel).
  destruct (EarleyParser.fill fuel o g tokens) as [F| |]; simpl in *; auto.
  rewrite index_col by (rewrite (inv_length (final_inv H)); lia). simpl.
  exists F. split; [reflexivity|]. split; [assumption|].
  apply count_perm, iter_perm.
Qed.

Lemma parse_enough (o : Order) (g : Grammar.t) (tokens : list string) (fuel : nat) :
  enough g tokens <= fuel ->
  exists F, EarleyParser.fill fuel o g tokens = Done F
            /\ Final g tokens F
            /\ EarleyParser.parse fuel o g tokens
               = Done (EarleyParser.count g (col F (List.length tokens))).
Proof.
  intros Hf. assert (H := parse_safe o g tokens fuel). unfold enough in Hf.
  destruct (EarleyParser.parse fuel o g tokens) as [r| |]; simpl in H.
  - destruct H as (F & E & HF & ->). exists F. auto.
  - destruct H.
  - lia.
Qed.

Lemma parse_functional (o1 o2 : Order) (g : Grammar.t) (tokens : list string)
  (fuel1 fuel2 r1 r2 : nat) :
  EarleyParser.parse fuel1 o1 g tokens = Done r1 ->
  EarleyParser.parse fuel2 o2 g tokens = Done r2 ->
  r1 = r2.
Proof.
  intros E1 E2.
  assert (H1 := parse_safe o1 g tokens fuel1). rewrite E1 in H1.
  assert (H2 := parse_safe o2 g tokens fuel2). rewrite E2 in H2.
  destruct H1 as (F1 & _ & HF1 & ->). destruct H2 as (F2 & _ & HF2 & ->).
  apply count_perm. now apply final_perm with g tokens.
Qed.

Lemma parse_value (o : Order) (g : Grammar.t) (tokens : list string) (fuel r : nat) :
  EarleyParser.parse fuel insertion_order g tokens = Done r ->
  EarleyParser.parse (enough g tokens) o g tokens = Done r.
Proof.
  intros E.
  destruct (@parse_enough o g tokens (enough g tokens) (le_n _)) as (F & _ & _ & E').
  rewrite E'. f_equal. symmetry. eapply parse_functional; eauto.
Qed.

(** ** The bounds on dot and origin, step by step *)

Lemma for_each_preserves (X S : Type) (P : S -> Prop) (xs : list X)
  (body : X -> S -> outcome S) :
  (forall x s s', In x xs -> P s -> body x s = Done s' -> P s') ->
  forall s s', P s -> for_each xs body s = Done s' -> P s'.
Proof.
  induction xs as [|x xs IH]; intros Hbody s s' Hs E; simpl in E.
  - now inversion E; subst.
  - destruct (body x s) as [s1| |] eqn:E1; simpl in E; try discriminate.
    apply (IH (fun y a b Hy => Hbody y a b (or_intror Hy)) s1 s'); auto.
    apply (Hbody x s s1); auto. now left.
Qed.

Lemma index_done_col (ch : Chart.t) (j : nat) (c : list State.t) :
  index ch j = Done c -> j < List.length ch /\ c = col ch j.
Proof.
  unfold index, col. destruct (nth_error ch j) eqn:E; [|discriminate].
  intros [= <-]. split.
  - apply nth_error_Some. congruence.
  - symmetry. now apply nth_error_nth.
Qed.

Lemma add_bounded (ch ch' : Chart.t) (idx : nat) (item : State.t) (b : bool) :
  bounded ch ->
  State.dot item <= List.length (Production.rhs (State.production item)) ->
  State.start item <= idx ->
  Chart.add ch idx item = Done (ch', b) -> bounded ch'.
Proof.
  intros HB Hd Hs. unfold Chart.add.
  destruct (index ch idx) as [c| |] eqn:E; simpl; try discriminate.
  destruct (index_done_col _ _ E) as [Hlt ->].
  destruct (Chart.mem item (col ch idx)); simpl; intros [= <- <-]; auto.
  intros j st. destruct (Nat.eq_dec j idx) as [->|Hj].
  - rewrite col_store_same by assumption. rewrite in_app_iff.
    intros [H|[<-|[]]]; auto.
  - rewrite col_store_other by assumption. apply HB.
Qed.

Lemma add_flag_bounded (s s' : EarleyParser.loop_state) (idx : nat) (item : State.t) :
  bounded (fst s) ->
  State.dot item <= List.length (Production.rhs (State.production item)) ->
  State.start item <= idx ->
  EarleyParser.add_flag idx item s = Done s' -> bounded (fst s').
Proof.
  intros HB Hd Hs. unfold EarleyParser.add_flag.
  destruct (Chart.add (fst s) idx item) as [[ch' b]| |] eqn:E; simpl; try discriminate.
  intros [= <-]. simpl. eapply add_bounded; eauto.
Qed.

Section Bounds.
Variables (o : Order) (g : Grammar.t) (tokens : list string).

Lemma completer_bounded (i : nat) (st : State.t) (s s' : EarleyParser.loop_state) :
  bounded (fst s) -> State.start st <= i ->
  EarleyParser.completer o i st s = Done s' -> bounded (fst s').
Proof.
  intros HB Hs. unfold EarleyParser.completer, Chart.getitem.
  destruct (index (fst s) (State.start st)) as [prevs| |] eqn:E; simpl;
    try discriminate.
  destruct (index_done_col _ _ E) as [_ ->].
  apply for_each_preserves with (P := fun s0 => bounded (fst s0)); auto.
  intros prev s1 s2 Hin HB1. rewrite next_symbol_done. simpl.
  apply (Permutation_in _ (iter_perm o _)) in Hin.
  destruct (EarleyParser.sym_is (next prev) _) eqn:Es.
  - apply sym_is_true, next_some_lt in Es.
    apply add_flag_bounded; simpl; auto; try lia.
    destruct (HB _ _ Hin). lia.
  - now intros [= <-].
Qed.

Lemma predictor_bounded (i : nat) (A : NonTerminal.t) (s s' : EarleyParser.loop_state) :
  bounded (fst s) -> EarleyParser.predictor g i A s = Done s' -> bounded (fst s').
Proof.
  intros HB. unfold EarleyParser.predictor.
  apply for_each_preserves with (P := fun s0 => bounded (fst s0)); auto.
  intros prod s1 s2 _ HB1. apply add_flag_bounded; simpl; auto; lia.
Qed.

Lemma scanner_bounded (i : nat) (st : State.t) (a : string)
  (s s' : EarleyParser.loop_state) :
  bounded (fst s) -> State.start st <= i -> next st = Some (Tok a) ->
  EarleyParser.scanner tokens i st a s = Done s' -> bounded (fst s').
Proof.
  intros HB Hs Hn. unfold EarleyParser.scanner. apply next_some_lt in Hn.
  destruct (i <? List.length tokens); [|now intros [= <-]].
  destruct (index tokens i) as [tok| |]; simpl; try discriminate.
  destruct (String.eqb tok a); [|now intros [= <-]].
  apply add_flag_bounded; simpl; auto; lia.
Qed.

Lemma visit_bounded (i : nat) (st : State.t) (s s' : EarleyParser.loop_state) :
  bounded (fst s) -> State.start st <= i ->
  EarleyParser.visit o g tokens i st s = Done s' -> bounded (fst s').
Proof.
  intros HB Hs. unfold EarleyParser.visit. rewrite next_symbol_done. simpl.
  destruct (next st) as [[A|a]|] eqn:Hn.
  - now apply predictor_bounded.
  - now apply scanner_bounded.
  - now apply completer_bounded.
Qed.

Lemma pass_bounded (i : nat) (ch : Chart.t) (s' : EarleyParser.loop_state) :
  bounded ch -> EarleyParser.pass o g tokens i ch = Done s' -> bounded (fst s').
Proof.
  intros HB. unfold EarleyParser.pass, Chart.getitem.
  destruct (index ch i) as [snapshot| |] eqn:E; simpl; try discriminate.
  destruct (index_done_col _ _ E) as [_ ->].
  apply for_each_preserves with (P := fun s0 => bounded (fst s0)); auto.
  intros st s1 s2 Hin HB1.
  apply (Permutation_in _ (iter_perm o _)) in Hin.
  apply visit_bounded; auto. now destruct (HB _ _ Hin).
Qed.

Lemma closure_bounded (fuel i : nat) (ch ch' : Chart.t) :
  bounded ch -> EarleyParser.closure fuel o g tokens i ch = Done ch' -> bounded ch'.
Proof.
  revert ch. induction fuel as [|fuel IH]; intros ch HB; simpl; [discriminate|].
  destruct (EarleyParser.pass o g tokens i ch) as [[ch1 changed]| |] eqn:E; simpl;
    try discriminate.
  apply pass_bounded in E; auto. simpl in E.
  destruct changed; [now apply IH|now intros [= <-]].
Qed.

Lemma seed_bounded (ch ch' : Chart.t) :
  bounded ch -> EarleyParser.seed g ch = Done ch' -> bounded ch'.
Proof.
  unfold EarleyParser.seed. intros HB.
  apply for_each_preserves with (P := bounded); auto.
  intros prod ch1 ch2 _ HB1.
  destruct (Chart.add ch1 0 (State.mk prod 0 0)) as [[ch3 b]| |] eqn:E; simpl;
    try discriminate.
  intros [= <-]. eapply add_bounded; [exact HB1| | |exact E]; simpl; lia.
Qed.

Lemma bounded_init (n : nat) : bounded (Chart.init n).
Proof. intros j st. rewrite col_init. intros []. Qed.

Lemma fill_bounded (fuel : nat) (F : Chart.t) :
  EarleyParser.fill fuel o g tokens = Done F -> bounded F.
Proof.
  unfold EarleyParser.fill.
  destruct (EarleyParser.seed g _) as [ch0| |] eqn:E; simpl; try discriminate.
  apply seed_bounded in E; [|apply bounded_init].
  apply for_each_preserves with (P := bounded); auto.
  intros i ch1 ch2 _ HB1. now apply closure_bounded.
Qed.
End Bounds.

(** ** The count against the alternatives of the start symbol *)

Lemma count_le_alternatives (g : Grammar.t) (tokens : list string) (F : Chart.t) :
  Inv g tokens F ->
  EarleyParser.count g (col F (List.length tokens))
  <= List.length (Grammar.alternatives g (Grammar.start g)).
Proof.
  intros HI. rewrite count_filter.
  set (L := filter (EarleyParser.accepting g) (col F (List.length tokens))).
  assert (HL : forall st, In st L ->
             st = State.mk (State.production st)
                    (List.length (Production.rhs (State.production st))) 0
             /\ In (State.production st)
                   (Grammar.productions_for g (Grammar.start g))).
  { intros st Hin. apply filter_In in Hin. destruct Hin as [Hin Hacc].
    apply accepting_true in Hacc. destruct Hacc as (Hl & Hs & Hc).
    destruct (derivable_ok (inv_sound HI _ _ Hin)) as [(Hp & Hd & _) _].
    unfold State.is_complete in Hc. apply Nat.leb_le in Hc.
    rewrite Hl in Hp. split; [|assumption].
    destruct st as [prod d s]. simpl in *. f_equal; lia. }
  rewrite <- (length_map State.production L).
  replace (List.length (Grammar.alternatives g (Grammar.start g)))
    with (List.length (Grammar.productions_for g (Grammar.start g)))
    by apply length_map.
  apply NoDup_incl_length.
  - apply NoDup_map_NoDup_ForallPairs.
    + intros a b Ha Hb E. destruct (HL a Ha) as [-> _]. destruct (HL b Hb) as [-> _].
      simpl in E. now rewrite E.
    + apply NoDup_filter, (inv_nodup HI).
  - intros prod Hin. apply in_map_iff in Hin. destruct Hin as (st & <- & Hin).
    now apply HL.
Qed.

(** * The claims *)

(** ** Acceptance on the sample grammar *)

Lemma returns_value (o : Order) (g : Grammar.t) (tokens : list string) (fuel r : nat) :
  EarleyParser.parse fuel insertion_order g tokens = Done r -> returns o g tokens r.
Proof. intros E. exists (enough g tokens). now apply parse_value with fuel. Qed.

Lemma returns_functional (o1 o2 : Order) (g : Grammar.t) (tokens : list string)
  (r1 r2 : nat) :
  returns o1 g tokens r1 -> returns o2 g tokens r2 -> r1 = r2.
Proof. intros [f1 E1] [f2 E2]. eapply parse_functional; eauto. Qed.

Lemma sample_values (o : Order) :
  returns o grammar sent1 1 /\ returns o grammar sent2 1 /\ returns o grammar sent3 1
  /\ returns o grammar [] 0 /\ returns o grammar ["zzz"%string] 0.
Proof.
  repeat split; apply returns_value with 20; vm_compute; reflexivity.
Qed.

(** C1, as stated, fails at ["fish"; "they"; "can"]: [parse] returns 1 there,
    so under no iteration order do the five verdicts of the claim hold
    together.  The sentence is derivable: S -> NP VP, NP -> N "fish",
    VP -> V "they" NP, NP -> N "can". *)
Lemma C1_fish_they_can_is_accepted :
  EarleyParser.parse 20 insertion_order grammar sent3 = Done 1
  /\ ~ exists o : Order,
        accepts o grammar sent1 /\ accepts o grammar sent2
        /\ rejects o grammar sent3
        /\ rejects o grammar [] /\ rejects o grammar ["zzz"%string].
Proof.
  split; [vm_compute; reflexivity|].
  intros (o & _ & _ & H3 & _).
  destruct (sample_values o) as (_ & _ & H3' & _).
  discriminate (returns_functional H3 H3').
Qed.

(** C1, amended: with the sample grammar, [parse] accepts
    ["they";"can";"fish";"in";"rivers";"in";"December"], ["they";"can";"fish"]
    and also ["fish";"they";"can"] (each returns 1), and rejects [] and ["zzz"]
    (each returns 0), under every iteration order of the sets; and 1 is the
    only value a run on an accepted sentence returns. *)
Theorem C1_sample_verdicts (o : Order) :
  (returns o grammar sent1 1 /\ returns o grammar sent2 1 /\ returns o grammar sent3 1
   /\ returns o grammar [] 0 /\ returns o grammar ["zzz"%string] 0)
  /\ (accepts o grammar sent1 /\ accepts o grammar sent2 /\ accepts o grammar sent3
      /\ rejects o grammar [] /\ rejects o grammar ["zzz"%string])
  /\ (forall r, returns o grammar sent1 r \/ returns o grammar sent2 r
                \/ returns o grammar sent3 r -> r = 1).
Proof.
  assert (H := sample_values o). destruct H as (H1 & H2 & H3 & H4 & H5).
  split; [repeat split; assumption|]. split.
  - repeat split; try assumption; exists 1; (split; [assumption|discriminate]).
  - intros r [H|[H|H]]; eapply returns_functional; eauto.
Qed.

(** ** The returned value *)

(** C2: with enough fuel [parse] returns; the chart it reads is closed at
    every column; the value is the number of items of column [n] whose
    production's lhs is the start symbol, whose origin is 0 and which are
    complete; it is nonzero iff there is such an item; and any run that
    returns, returns that value. *)
Theorem C2_parse_counts_accepting_items (o : Order) (g : Grammar.t)
  (tokens : list string) :
  exists F,
    EarleyParser.fill (enough g tokens) o g tokens = Done F
    /\ (forall i, i <= List.length tokens -> closed g tokens F i)
    /\ EarleyParser.parse (enough g tokens) o g tokens
       = Done (List.length (filter (EarleyParser.accepting g)
                                   (col F (List.length tokens))))
    /\ (forall fuel r, EarleyParser.parse fuel o g tokens = Done r ->
          r = List.length (filter (EarleyParser.accepting g)
                                  (col F (List.length tokens))))
    /\ (List.length (filter (EarleyParser.accepting g) (col F (List.length tokens)))
        <> 0 <->
        exists st, In st (col F (List.length tokens))
                   /\ Production.lhs (State.production st) = Grammar.start g
                   /\ State.start st = 0
                   /\ State.is_complete st = true).
Proof.
  destruct (@parse_enough o g tokens (enough g tokens) (le_n _)) as (F & E & HF & EP).
  rewrite count_filter in EP.
  exists F. split; [assumption|]. split; [apply (final_closed HF)|].
  split; [assumption|]. split.
  - intros fuel r Er. eapply parse_functional; eauto.
  - rewrite <- count_filter, count_positive.
    split; intros (st & Hin & H); exists st; (split; [assumption|]);
      now apply accepting_true.
Qed.

(** C3, as stated, fails: on the ambiguous sentence [parse] returns 1, and no
    run returns a count above 1, under any iteration order. *)
Lemma C3_ambiguous_sentence_counts_one :
  EarleyParser.parse 20 insertion_order grammar sent1 = Done 1
  /\ ~ exists (o : Order) (r : nat), returns o grammar sent1 r /\ 1 < r.
Proof.
  split; [vm_compute; reflexivity|].
  intros (o & r & H & Hr).
  destruct (sample_values o) as (H1 & _).
  rewrite (returns_functional H H1) in Hr. lia.
Qed.

(** C3, amended: for the sample grammar the ambiguous sentence
    ["they";"can";"fish";"in";"rivers";"in";"December"] yields exactly one
    accepting item in the final column: [parse] returns 1, under every
    iteration order and whatever the fuel. *)
Theorem C3_ambiguity_not_exposed (o : Order) :
  EarleyParser.parse (enough grammar sent1) o grammar sent1 = Done 1
  /\ forall fuel r, EarleyParser.parse fuel o grammar sent1 = Done r -> r = 1.
Proof.
  assert (E : EarleyParser.parse (enough grammar sent1) o grammar sent1 = Done 1)
    by (apply parse_value with 20; vm_compute; reflexivity).
  split; [assumption|]. intros fuel r Er. eapply parse_functional; eauto.
Qed.

(** ** Termination *)

(** C4: [parse] terminates.  With [enough g tokens] units of fuel or more
    (one more than the number of items the chart can ever hold), [parse]
    returns, and the [while changed] loop of any column, started from any
    chart of the parse, stops on a chart over which a full pass adds nothing. *)
Theorem C4_parse_terminates (o : Order) (g : Grammar.t) (tokens : list string)
  (fuel : nat) :
  enough g tokens <= fuel ->
  (exists r, EarleyParser.parse fuel o g tokens = Done r)
  /\ forall i ch, i <= List.length tokens -> Inv g tokens ch ->
       exists ch', EarleyParser.closure fuel o g tokens i ch = Done ch'
                   /\ EarleyParser.pass o g tokens i ch' = Done (ch', false).
Proof.
  intros Hf. split.
  - destruct (@parse_enough o g tokens fuel Hf) as (F & _ & _ & E). eauto.
  - intros i ch Hi HI. assert (H := @closure_safe o g tokens i fuel Hi ch HI).
    unfold enough in Hf.
    destruct (EarleyParser.closure fuel o g tokens i ch) as [ch'| |]; simpl in H.
    + exists ch'. split; [reflexivity|apply H].
    + destruct H.
    + lia.
Qed.

Lemma C4_parse_terminates_witness :
  enough grammar sent2 <= 400
  /\ ((exists r, EarleyParser.parse 400 reverse_order grammar sent2 = Done r)
      /\ forall i ch, i <= List.length sent2 -> Inv grammar sent2 ch ->
           exists ch', EarleyParser.closure 400 reverse_order grammar sent2 i ch = Done ch'
                       /\ EarleyParser.pass reverse_order grammar sent2 i ch'
                          = Done (ch', false)).
Proof.
  split; [vm_compute; lia|].
  apply (@C4_parse_terminates reverse_order grammar sent2 400). vm_compute; lia.
Defined.

(** ** [Chart.add] *)

(** C5: on a column index of the chart, [Chart.add] returns; the flag is true
    iff the item was absent, iff the chart changed; afterwards the column
    holds the old items and the new one, the other columns are as before,
    an item already present leaves the chart as it was with flag false, and a
    duplicate-free column stays duplicate-free. *)
Theorem C5_add_inserts_iff_absent (ch : Chart.t) (idx : nat) (state : State.t) :
  idx < List.length ch ->
  exists ch' b,
    Chart.add ch idx state = Done (ch', b)
    /\ (b = true <-> ~ In state (col ch idx))
    /\ (b = true <-> ch' <> ch)
    /\ (forall x, In x (col ch' idx) <-> In x (col ch idx) \/ x = state)
    /\ (In state (col ch idx) -> b = false /\ ch' = ch)
    /\ (NoDup (col ch idx) -> NoDup (col ch' idx))
    /\ (forall j, j <> idx -> col ch' j = col ch j).
Proof.
  intros Hlt. rewrite add_done by assumption.
  destruct (Chart.mem state (col ch idx)) eqn:E.
  - apply mem_true in E. exists ch, false.
    split; [reflexivity|]. split; [split; [discriminate|tauto]|].
    split; [split; [discriminate|congruence]|].
    split; [intros x; split; [tauto|intros [H| ->]; assumption]|].
    split; [auto|]. split; auto.
  - assert (Hn : ~ In state (col ch idx)).
    { intros Hin. apply mem_true in Hin. congruence. }
    exists (store ch idx (col ch idx ++ [state])), true.
    split; [reflexivity|]. split; [tauto|]. split; [|split; [|split; [|split]]].
    + split; [|reflexivity]. intros _ Heq.
      assert (H := col_store_same ch (col ch idx ++ [state]) Hlt).
      rewrite Heq in H. apply (f_equal (@List.length State.t)) in H.
      rewrite length_app in H. simpl in H. lia.
    + intros x. rewrite col_store_same by assumption. rewrite in_app_iff. simpl.
      intuition congruence.
    + intros Hin. contradiction.
    + intros Hnd. rewrite col_store_same by assumption.
      apply NoDup_app; [assumption|repeat constructor; intros []|].
      intros x Hx [<-|[]]. contradiction.
    + intros j Hj. now apply col_store_other.
Qed.

Lemma C5_add_inserts_iff_absent_witness :
  1 < List.length (Chart.init 1)
  /\ exists ch' b,
       Chart.add (Chart.init 1) 1 (State.mk (Production.mk NonTerminal.S []) 0 0)
       = Done (ch', b)
       /\ (b = true <->
           ~ In (State.mk (Production.mk NonTerminal.S []) 0 0) (col (Chart.init 1) 1))
       /\ (b = true <-> ch' <> Chart.init 1)
       /\ (forall x, In x (col ch' 1) <->
             In x (col (Chart.init 1) 1)
             \/ x = State.mk (Production.mk NonTerminal.S []) 0 0)
       /\ (In (State.mk (Production.mk NonTerminal.S []) 0 0) (col (Chart.init 1) 1) ->
           b = false /\ ch' = Chart.init 1)
       /\ (NoDup (col (Chart.init 1) 1) -> NoDup (col ch' 1))
       /\ (forall j, j <> 1 -> col ch' j = col (Chart.init 1) j).
Proof.
  split; [simpl; lia|].
  apply (@C5_add_inserts_iff_absent (Chart.init 1) 1
           (State.mk (Production.mk NonTerminal.S []) 0 0)).
  simpl; lia.
Defined.

(** ** [Grammar.productions_for] *)

(** C6: for a nonterminal with declared alternatives, [productions_for]
    returns as many productions as alternatives, the [k]-th one pairing the
    nonterminal with the [k]-th alternative; for a nonterminal that is not a
    key of the rules it returns the empty list. *)
Theorem C6_productions_for_alternatives (g : Grammar.t) (nt : NonTerminal.t) :
  (forall alts, Grammar.rules g nt = Some alts ->
     List.length (Grammar.productions_for g nt) = List.length alts
     /\ (forall k rhs, nth_error alts k = Some rhs ->
           nth_error (Grammar.productions_for g nt) k = Some (Production.mk nt rhs))
     /\ (forall prod, In prod (Grammar.productions_for g nt) ->
           Production.lhs prod = nt /\ In (Production.rhs prod) alts))
  /\ (Grammar.rules g nt = None -> Grammar.productions_for g nt = []).
Proof.
  unfold Grammar.productions_for, Grammar.alternatives. split.
  - intros alts ->. split; [apply length_map|]. split.
    + intros k rhs H. now rewrite nth_error_map, H.
    + intros prod H. apply in_map_iff in H. destruct H as (rhs & <- & H). auto.
  - intros ->. reflexivity.
Qed.

(** ** The invariant on dot and origin *)

(** C7: every item of column [j] has [dot <= len(rhs)] and [origin <= j]
    all along a parse: it holds of the fresh chart, the seeding loop keeps
    it, so does visiting any item of column [i] whichever of the completer,
    predictor and scanner this runs, so do whole passes and closure loops,
    and it holds of the chart that [parse] finally reads. *)
Theorem C7_items_within_bounds (o : Order) (g : Grammar.t) (tokens : list string) :
  bounded (Chart.init (List.length tokens))
  /\ (forall ch ch', bounded ch -> EarleyParser.seed g ch = Done ch' -> bounded ch')
  /\ (forall i st s s', bounded (fst s) -> In st (col (fst s) i) ->
        EarleyParser.visit o g tokens i st s = Done s' -> bounded (fst s'))
  /\ (forall i st s s', bounded (fst s) -> In st (col (fst s) i) ->
        EarleyParser.completer o i st s = Done s' -> bounded (fst s'))
  /\ (forall i A s s', bounded (fst s) ->
        EarleyParser.predictor g i A s = Done s' -> bounded (fst s'))
  /\ (forall i st a s s', bounded (fst s) -> In st (col (fst s) i) ->
        next st = Some (Tok a) ->
        EarleyParser.scanner tokens i st a s = Done s' -> bounded (fst s'))
  /\ (forall i ch s', bounded ch ->
        EarleyParser.pass o g tokens i ch = Done s' -> bounded (fst s'))
  /\ (forall fuel i ch ch', bounded ch ->
        EarleyParser.closure fuel o g tokens i ch = Done ch' -> bounded ch')
  /\ (forall fuel F, EarleyParser.fill fuel o g tokens = Done F -> bounded F)
  /\ exists F, EarleyParser.fill (enough g tokens) o g tokens = Done F /\ bounded F.
Proof.
  split; [apply bounded_init|].
  split; [intros ch ch'; apply seed_bounded|].
  split; [intros i st s s' HB Hin; apply visit_bounded; auto;
          now destruct (HB _ _ Hin)|].
  split; [intros i st s s' HB Hin; apply completer_bounded; auto;
          now destruct (HB _ _ Hin)|].
  split; [intros i A s s'; apply predictor_bounded|].
  split; [intros i st a s s' HB Hin; apply scanner_bounded; auto;
          now destruct (HB _ _ Hin)|].
  split; [intros i ch s'; apply pass_bounded|].
  split; [intros fuel i ch ch'; apply closure_bounded|].
  split; [intros fuel F; apply fill_bounded|].
  destruct (@parse_enough o g tokens (enough g tokens) (le_n _)) as (F & E & _).
  exists F. split; [assumption|]. now apply fill_bounded in E.
Qed.

(** ** Absence of exceptions *)

(** C8: [parse] never raises, whatever the fuel, and returns when given
    enough of it; at column [i = n] the scanner leaves the loop state as it
    is, without indexing the tokens; an item of a production with an empty
    right-hand side is complete, its next symbol is [None] without indexing
    the right-hand side; and a grammar with such a production parses. *)
Theorem C8_parse_never_raises (o : Order) (g : Grammar.t) (tokens : list string) :
  (forall fuel e, EarleyParser.parse fuel o g tokens <> Raise e)
  /\ (exists r, EarleyParser.parse (enough g tokens) o g tokens = Done r)
  /\ (forall st a s,
        EarleyParser.scanner tokens (List.length tokens) st a s = Done s)
  /\ (forall a, index tokens (List.length tokens) = Raise IndexError
                /\ forall st s, EarleyParser.scanner tokens (List.length tokens) st a s
                                <> Raise IndexError)
  /\ (forall A d j,
        State.is_complete (State.mk (Production.mk A []) d j) = true
        /\ State.next_symbol (State.mk (Production.mk A []) d j) = Done None)
  /\ EarleyParser.parse (enough nullable_grammar []) o nullable_grammar [] = Done 1
  /\ EarleyParser.parse (enough nullable_grammar sent2) o nullable_grammar sent2
     = Done 1.
Proof.
  split.
  { intros fuel e E. assert (H := parse_safe o g tokens fuel).
    rewrite E in H. exact H. }
  split.
  { destruct (@parse_enough o g tokens (enough g tokens) (le_n _)) as (F & _ & _ & E).
    eauto. }
  assert (Hs : forall st a s,
             EarleyParser.scanner tokens (List.length tokens) st a s = Done s).
  { intros st a s. unfold EarleyParser.scanner. now rewrite Nat.ltb_irrefl. }
  split; [exact Hs|]. split.
  { intros a. split; [now apply index_raises|]. intros st s. now rewrite Hs. }
  split; [intros A d j; split; reflexivity|].
  split; apply parse_value with 20; vm_compute; reflexivity.
Qed.

(** ** Determinism *)

(** C9: the result of [parse] depends on the grammar and the tokens only:
    two calls that return, return the same value, whatever the order in which
    each of them iterates over its sets and however long each is let run. *)
Theorem C9_parse_deterministic (o1 o2 : Order) (g : Grammar.t) (tokens : list string)
  (fuel1 fuel2 r1 r2 : nat) :
  EarleyParser.parse fuel1 o1 g tokens = Done r1 ->
  EarleyParser.parse fuel2 o2 g tokens = Done r2 ->
  r1 = r2.
Proof. apply parse_functional. Qed.

Lemma C9_parse_deterministic_witness :
  EarleyParser.parse 20 insertion_order grammar sent1 = Done 1
  /\ EarleyParser.parse 30 reverse_order grammar sent1 = Done 1
  /\ 1 = 1.
Proof.
  split; [vm_compute; reflexivity|]. split; [vm_compute; reflexivity|].
  apply (@C9_parse_deterministic insertion_order reverse_order grammar sent1 20 30 1 1);
    vm_compute; reflexivity.
Defined.

(** ** The count and the start alternatives *)

(** C10: [parse] returns, and whatever it returns is at most the number of
    alternatives declared for the start symbol; with a single alternative
    there, as for [S] in the sample grammar, it is at most 1. *)
Theorem C10_count_at_most_start_alternatives (o : Order) (g : Grammar.t)
  (tokens : list string) :
  (exists r, EarleyParser.parse (enough g tokens) o g tokens = Done r)
  /\ (forall fuel r, EarleyParser.parse fuel o g tokens = Done r ->
        r <= List.length (Grammar.alternatives g (Grammar.start g)))
  /\ (forall rhs fuel r, Grammar.rules g (Grammar.start g) = Some [rhs] ->
        EarleyParser.parse fuel o g tokens = Done r -> r <= 1)
  /\ (forall fuel r, EarleyParser.parse fuel o grammar tokens = Done r -> r <= 1).
Proof.
  assert (H : forall g' fuel r, EarleyParser.parse fuel o g' tokens = Done r ->
                r <= List.length (Grammar.alternatives g' (Grammar.start g'))).
  { intros g' fuel r E. assert (H := parse_safe o g' tokens fuel). rewrite E in H.
    destruct H as (F & _ & HF & ->).
    apply count_le_alternatives, (final_inv HF). }
  split.
  { destruct (@parse_enough o g tokens (enough g tokens) (le_n _)) as (F & _ & _ & E).
    eauto. }
  split; [apply H|]. split.
  - intros rhs fuel r Hr E. apply H in E.
    unfold Grammar.alternatives in E. now rewrite Hr in E.
  - intros fuel r E. now apply H in E.
Qed.

(** * Further properties *)

(** ** Spans of the input *)

Lemma firstn_snoc (A : Type) (l : list A) (k : nat) (x : A) :
  nth_error l k = Some x -> firstn (k + 1) l = firstn k l ++ [x].
Proof.
  revert k. induction l as [|y l IH]; intros [|k] H; simpl in *; try discriminate.
  - now inversion H.
  - f_equal. now apply IH.
Qed.

Lemma firstn_add_skipn (A : Type) (l : list A) (a b : nat) :
  firstn a l ++ firstn b (skipn a l) = firstn (a + b) l.
Proof.
  revert l. induction a as [|a IH]; intros [|x l]; simpl; auto.
  - now rewrite firstn_nil.
  - f_equal. apply IH.
Qed.

Lemma span_nil (tokens : list string) (i : nat) : span tokens i i = [].
Proof. unfold span. now rewrite Nat.sub_diag. Qed.

Lemma span_all (tokens : list string) : span tokens 0 (List.length tokens) = tokens.
Proof. unfold span. rewrite Nat.sub_0_r. simpl. apply firstn_all. Qed.

Lemma span_snoc (tokens : list string) (j i : nat) (a : string) :
  j <= i -> nth_error tokens i = Some a ->
  span tokens j (i + 1) = span tokens j i ++ [a].
Proof.
  intros Hj Ha. unfold span.
  replace (i + 1 - j) with (i - j + 1) by lia.
  apply firstn_snoc. rewrite nth_error_skipn.
  now replace (j + (i - j)) with i by lia.
Qed.

Lemma span_app (tokens : list string) (j k i : nat) :
  j <= k -> k <= i -> span tokens j k ++ span tokens k i = span tokens j i.
Proof.
  intros Hj Hk. unfold span.
  replace (skipn k tokens) with (skipn (k - j) (skipn j tokens))
    by (rewrite skipn_skipn; f_equal; lia).
  rewrite firstn_add_skipn. f_equal. lia.
Qed.

Lemma span_prefix (tokens : list string) (j i k : nat) :
  i <= k -> span (firstn k tokens) j i = span tokens j i.
Proof.
  intros Hk. unfold span.
  rewrite skipn_firstn_comm, firstn_firstn. f_equal. lia.
Qed.

(** ** Items mean derivations *)

Lemma derives_seq_app (g : Grammar.t) (xs ys : list Symbol) (w1 w2 : list string) :
  derives_seq g xs w1 -> derives_seq g ys w2 -> derives_seq g (xs ++ ys) (w1 ++ w2).
Proof.
  intros H1 H2. induction H1 as [|X rest u v HX Hrest IH]; simpl; auto.
  rewrite <- app_assoc. now constructor.
Qed.

Lemma derives_seq_single (g : Grammar.t) (X : Symbol) (w : list string) :
  derives g X w -> derives_seq g [X] w.
Proof.
  intros H. rewrite <- (app_nil_r w). constructor; [assumption|constructor].
Qed.

Lemma matched_advance (st : State.t) (X : Symbol) :
  next st = Some X -> matched (State.advance st) = matched st ++ [X].
Proof. intros H. unfold matched. simpl. now apply firstn_snoc. Qed.

Lemma matched_complete (st : State.t) :
  next st = None -> matched st = Production.rhs (State.production st).
Proof.
  intros H. unfold matched, next in *. apply firstn_all2. now apply nth_error_None.
Qed.

Lemma derivable_sound (g : Grammar.t) (tokens : list string) (i : nat) (st : State.t) :
  Derivable g tokens i st ->
  derives_seq g (matched st) (span tokens (State.start st) i).
Proof.
  induction 1 as [prod Hp | i st prev H1 IH1 Hn H2 IH2 Hp
                 | i st A prod H1 IH1 Hn Hp | i st a H1 IH1 Hn Ht].
  - simpl. rewrite span_nil. constructor.
  - destruct (derivable_ok H1) as [(Hprod & _ & Hs) Hi].
    destruct (derivable_ok H2) as [(_ & _ & Hs') _].
    rewrite (matched_advance _ Hp). simpl.
    rewrite <- (span_app tokens Hs' Hs).
    apply derives_seq_app; [assumption|]. apply derives_seq_single.
    rewrite (matched_complete _ Hn) in IH1.
    apply derives_nt with (Production.rhs (State.production st)); [|assumption].
    unfold Grammar.productions_for in Hprod. apply in_map_iff in Hprod.
    destruct Hprod as (rhs & E & Hin). now rewrite <- E.
  - simpl. rewrite span_nil. constructor.
  - destruct (derivable_ok H1) as [(_ & _ & Hs) _].
    rewrite (matched_advance _ Hn). simpl. rewrite (span_snoc _ Hs Ht).
    apply derives_seq_app; [assumption|]. apply derives_seq_single. constructor.
Qed.

Lemma derivable_complete_mut (g : Grammar.t) (tokens : list string) :
  (forall X w, derives g X w ->
     forall pre post st, tokens = pre ++ w ++ post ->
       Derivable g tokens (List.length pre) st -> next st = Some X ->
       Derivable g tokens (List.length pre + List.length w) (State.advance st))
  /\ (forall rest w, derives_seq g rest w ->
        forall pre post st, tokens = pre ++ w ++ post ->
          Derivable g tokens (List.length pre) st ->
          skipn (State.dot st) (Production.rhs (State.production st)) = rest ->
          Derivable g tokens (List.length pre + List.length w)
            (State.mk (State.production st)
                      (List.length (Production.rhs (State.production st)))
                      (State.start st))).
Proof.
  apply derives_both.
  - intros a pre post st Ht Hd Hn. simpl.
    eapply D_scan; eauto. rewrite Ht.
    rewrite nth_error_app2 by lia. now rewrite Nat.sub_diag.
  - intros A rhs w Hin _ IH pre post st Ht Hd Hn.
    set (prod := Production.mk A rhs).
    assert (Hp : In prod (Grammar.productions_for g A)).
    { unfold Grammar.productions_for. apply in_map_iff. exists rhs. now split. }
    assert (H0 : Derivable g tokens (List.length pre)
                   (State.mk prod 0 (List.length pre)))
      by (eapply D_predict; eauto).
    specialize (IH pre post (State.mk prod 0 (List.length pre)) Ht H0 eq_refl).
    simpl in IH.
    apply (@D_complete g tokens _
             (State.mk prod (List.length rhs) (List.length pre)) st); simpl; auto.
    unfold next. simpl. apply nth_error_None. lia.
  - intros pre post st Ht Hd Hs. simpl. rewrite Nat.add_0_r.
    destruct (derivable_ok Hd) as [(_ & Hdot & _) _].
    assert (H := f_equal (@List.length Symbol) Hs).
    rewrite length_skipn in H. simpl in H.
    replace (List.length (Production.rhs (State.production st))) with (State.dot st)
      by lia.
    now destruct st.
  - intros X rest w1 w2 _ IHX _ IHrest pre post st Ht Hd Hs.
    assert (Hn : next st = Some X).
    { unfold next. rewrite <- (Nat.add_0_r (State.dot st)), <- nth_error_skipn, Hs.
      reflexivity. }
    rewrite <- app_assoc in Ht.
    assert (H1 := IHX pre (w2 ++ post) st Ht Hd Hn).
    rewrite <- length_app in H1.
    rewrite app_assoc in Ht.
    specialize (IHrest (pre ++ w1) post (State.advance st) Ht H1).
    simpl in IHrest. rewrite length_app, <- Nat.add_assoc, <- length_app in IHrest.
    apply IHrest.
    replace (State.dot st + 1) with (1 + State.dot st) by lia.
    rewrite <- skipn_skipn, Hs. reflexivity.
Qed.

Lemma fill_final (o : Order) (g : Grammar.t) (tokens : list string) (fuel : nat)
  (F : Chart.t) :
  EarleyParser.fill fuel o g tokens = Done F -> Final g tokens F.
Proof.
  intros E. assert (H := fill_safe o g tokens fuel). now rewrite E in H.
Qed.

Lemma production_declared (g : Grammar.t) (prod : Production.t) (A : NonTerminal.t) :
  In prod (Grammar.productions_for g A) <->
  Production.lhs prod = A /\ In (Production.rhs prod) (Grammar.alternatives g A).
Proof.
  unfold Grammar.productions_for. rewrite in_map_iff. split.
  - intros (rhs & <- & H). auto.
  - intros [<- H]. exists (Production.rhs prod). split; [now destruct prod|assumption].
Qed.

(** The accepting items of the last column are the start productions whose
    right-hand side yields the whole input, with the dot at the end. *)
Lemma accepting_items (g : Grammar.t) (tokens : list string) (F : Chart.t)
  (st : State.t) :
  Final g tokens F ->
  (In st (col F (List.length tokens)) /\ EarleyParser.accepting g st = true <->
   exists prod, st = State.mk prod (List.length (Production.rhs prod)) 0
                /\ In prod (Grammar.productions_for g (Grammar.start g))
                /\ derives_seq g (Production.rhs prod) tokens).
Proof.
  intros HF. split.
  - intros [Hin Hacc]. apply accepting_true in Hacc. destruct Hacc as (Hl & Hs & Hc).
    assert (Hd := inv_sound (final_inv HF) _ _ Hin).
    destruct (derivable_ok Hd) as [(Hp & Hdot & _) _].
    apply next_none_complete in Hc.
    exists (State.production st). split; [|split].
    + unfold next in Hc. apply nth_error_None in Hc.
      destruct st as [prod d s]. simpl in *. f_equal; lia.
    + now rewrite <- Hl.
    + apply derivable_sound in Hd.
      now rewrite (matched_complete _ Hc), Hs, span_all in Hd.
  - intros (prod & -> & Hp & Hw).
    assert (Hd : Derivable g tokens (List.length tokens)
                   (State.mk prod (List.length (Production.rhs prod)) 0)).
    { apply (proj2 (derivable_complete_mut g tokens) _ _ Hw [] []
               (State.mk prod 0 0)).
      - simpl. now rewrite app_nil_r.
      - now apply D_seed.
      - reflexivity. }
    split; [now apply (final_complete HF)|].
    apply accepting_true. simpl. split; [|split; [reflexivity|]].
    + now apply production_declared in Hp.
    + unfold State.is_complete. simpl. apply Nat.leb_refl.
Qed.

Lemma accepted_iff_derives (g : Grammar.t) (tokens : list string) (F : Chart.t) :
  Final g tokens F ->
  (EarleyParser.count g (col F (List.length tokens)) <> 0 <->
   derives g (Nt (Grammar.start g)) tokens).
Proof.
  intros HF. rewrite count_positive. split.
  - intros (st & H). apply (accepting_items st HF) in H.
    destruct H as (prod & _ & Hp & Hw). apply production_declared in Hp.
    apply derives_nt with (Production.rhs prod); tauto.
  - intros H. inversion H as [|A rhs w Hin Hw]; subst.
    exists (State.mk (Production.mk (Grammar.start g) rhs) (List.length rhs) 0).
    apply (accepting_items _ HF).
    exists (Production.mk (Grammar.start g) rhs). split; [reflexivity|].
    split; [|assumption]. now apply production_declared.
Qed.

(** ** Correctness of the recogniser *)

(** X1: [parse] returns, and its result is nonzero exactly when the tokens
    are a sentence of the grammar, that is when the start symbol yields them;
    this holds of every run that returns, under every iteration order. *)
Theorem X1_accepts_iff_sentence (o : Order) (g : Grammar.t) (tokens : list string) :
  (exists r, EarleyParser.parse (enough g tokens) o g tokens = Done r)
  /\ forall fuel r, EarleyParser.parse fuel o g tokens = Done r ->
       (r <> 0 <-> derives g (Nt (Grammar.start g)) tokens).
Proof.
  split.
  - destruct (@parse_enough o g tokens (enough g tokens) (le_n _)) as (F & _ & _ & E).
    eauto.
  - intros fuel r E. assert (H := parse_safe o g tokens fuel). rewrite E in H.
    destruct H as (F & _ & HF & ->). now apply accepted_iff_derives.
Qed.

(** X2: in the chart [parse] reads, an item [A -> alpha . beta, origin j] of
    column [i] always carries a declared alternative of [A], has [j <= i <= n],
    and [alpha] yields the tokens from position [j] to position [i]. *)
Theorem X2_items_are_partial_derivations (o : Order) (g : Grammar.t)
  (tokens : list string) :
  exists F,
    EarleyParser.fill (enough g tokens) o g tokens = Done F
    /\ forall i st, In st (col F i) ->
         In (Production.rhs (State.production st))
            (Grammar.alternatives g (Production.lhs (State.production st)))
         /\ State.start st <= i <= List.length tokens
         /\ derives_seq g (matched st) (span tokens (State.start st) i).
Proof.
  destruct (@parse_enough o g tokens (enough g tokens) (le_n _)) as (F & E & HF & _).
  exists F. split; [assumption|]. intros i st Hin.
  assert (Hd := inv_sound (final_inv HF) _ _ Hin).
  destruct (derivable_ok Hd) as [(Hp & _ & Hs) Hi].
  split; [now apply production_declared in Hp|]. split; [lia|].
  now apply derivable_sound.
Qed.

(** X3: the number [parse] returns is the number of distinct productions of
    the start symbol whose right-hand side yields the whole input. *)
Theorem X3_count_is_start_productions (o : Order) (g : Grammar.t)
  (tokens : list string) :
  exists prods : list Production.t,
    NoDup prods
    /\ (forall prod, In prod prods <->
          In prod (Grammar.productions_for g (Grammar.start g))
          /\ derives_seq g (Production.rhs prod) tokens)
    /\ EarleyParser.parse (enough g tokens) o g tokens = Done (List.length prods).
Proof.
  destruct (@parse_enough o g tokens (enough g tokens) (le_n _)) as (F & _ & HF & E).
  set (L := filter (EarleyParser.accepting g) (col F (List.length tokens))).
  assert (HL : forall st, In st L <->
             exists prod, st = State.mk prod (List.length (Production.rhs prod)) 0
                          /\ In prod (Grammar.productions_for g (Grammar.start g))
                          /\ derives_seq g (Production.rhs prod) tokens).
  { intros st. unfold L. rewrite filter_In. now apply accepting_items. }
  exists (map State.production L). split; [|split].
  - apply NoDup_map_NoDup_ForallPairs.
    + intros a b Ha Hb Heq. apply HL in Ha, Hb.
      destruct Ha as (pa & -> & _). destruct Hb as (pb & -> & _).
      simpl in Heq. now subst.
    + apply NoDup_filter, (inv_nodup (final_inv HF)).
  - intros prod. rewrite in_map_iff. split.
    + intros (st & <- & Hin). apply HL in Hin. destruct Hin as (p & -> & H). exact H.
    + intros H. exists (State.mk prod (List.length (Production.rhs prod)) 0).
      split; [reflexivity|]. apply HL. eauto.
  - rewrite E, count_filter, length_map. reflexivity.
Qed.

(** ** Prefixes of the input *)

Lemma derivable_prefix (g : Grammar.t) (tokens : list string) (i : nat) (st : State.t) :
  Derivable g tokens i st ->
  forall k, i <= k -> Derivable g (firstn k tokens) i st.
Proof.
  induction 1 as [prod Hp | i st prev H1 IH1 Hn H2 IH2 Hp
                 | i st A prod H1 IH1 Hn Hp | i st a H1 IH1 Hn Ht]; intros k Hk.
  - now apply D_seed.
  - destruct (derivable_ok H1) as [(_ & _ & Hs) _].
    eapply D_complete; eauto. apply IH2. lia.
  - eapply D_predict; eauto.
  - eapply D_scan; eauto; [apply IH1; lia|].
    rewrite nth_error_firstn.
    destruct (Nat.ltb_spec i k); [assumption|lia].
Qed.

Lemma derivable_extend (g : Grammar.t) (tokens : list string) (k i : nat)
  (st : State.t) :
  Derivable g (firstn k tokens) i st -> Derivable g tokens i st.
Proof.
  induction 1 as [prod Hp | i st prev H1 IH1 Hn H2 IH2 Hp
                 | i st A prod H1 IH1 Hn Hp | i st a H1 IH1 Hn Ht].
  - now apply D_seed.
  - eapply D_complete; eauto.
  - eapply D_predict; eauto.
  - eapply D_scan; eauto. rewrite nth_error_firstn in Ht.
    destruct (i <? k); [assumption|discriminate].
Qed.

(** X4: the chart recognises every prefix on the way: for [k <= n], counting
    the accepting items of column [k] of the chart built for the whole input
    gives what [parse] returns on the first [k] tokens. *)
Theorem X4_columns_recognise_prefixes (o : Order) (g : Grammar.t)
  (tokens : list string) :
  exists F,
    EarleyParser.fill (enough g tokens) o g tokens = Done F
    /\ forall k, k <= List.length tokens ->
         EarleyParser.parse (enough g (firstn k tokens)) o g (firstn k tokens)
         = Done (EarleyParser.count g (col F k)).
Proof.
  destruct (@parse_enough o g tokens (enough g tokens) (le_n _)) as (F & E & HF & _).
  exists F. split; [assumption|]. intros k Hk.
  destruct (@parse_enough o g (firstn k tokens) (enough g (firstn k tokens)) (le_n _))
    as (F' & _ & HF' & E').
  rewrite E'. f_equal. rewrite length_firstn, Nat.min_l by assumption.
  apply count_perm, NoDup_Permutation.
  - apply (inv_nodup (final_inv HF')).
  - apply (inv_nodup (final_inv HF)).
  - intros st. rewrite (final_exact k st HF), (final_exact k st HF'). split.
    + apply derivable_extend.
    + intros H. now apply derivable_prefix.
Qed.

(** ** Tokens and nonterminals outside the grammar *)

Lemma derives_tokens_occur (g : Grammar.t) :
  (forall X w, derives g X w -> forall a, In a w -> X = Tok a \/ occurs g a)
  /\ (forall rest w, derives_seq g rest w ->
        forall a, In a w -> In (Tok a) rest \/ occurs g a).
Proof.
  apply derives_both.
  - intros a b [<-|[]]. now left.
  - intros A rhs w Hin _ IH a Ha. right.
    destruct (IH a Ha) as [H|H]; [|assumption]. now exists A, rhs.
  - intros a [].
  - intros X rest w1 w2 _ IHX _ IHrest a Ha. apply in_app_or in Ha.
    destruct Ha as [Ha|Ha].
    + destruct (IHX a Ha) as [->|H]; [left; now left|now right].
    + destruct (IHrest a Ha) as [H|H]; [left; now right|now right].
Qed.

(** X5: an input with a token that is written in no right-hand side of the
    grammar is rejected: [parse] returns 0. *)
Theorem X5_unknown_token_rejected (o : Order) (g : Grammar.t) (tokens : list string)
  (a : string) :
  In a tokens -> ~ occurs g a ->
  EarleyParser.parse (enough g tokens) o g tokens = Done 0.
Proof.
  intros Ha Hno.
  destruct (@parse_enough o g tokens (enough g tokens) (le_n _)) as (F & _ & HF & E).
  rewrite E. f_equal.
  destruct (Nat.eq_dec (EarleyParser.count g (col F (List.length tokens))) 0)
    as [H0|Hpos]; [assumption|].
  apply (accepted_iff_derives HF) in Hpos.
  destruct (proj1 (derives_tokens_occur g) _ _ Hpos a Ha) as [H|H];
    [discriminate|contradiction].
Qed.

Lemma X5_unknown_token_rejected_witness :
  In "zzz"%string ["they"; "zzz"]%string
  /\ ~ occurs grammar "zzz"%string
  /\ EarleyParser.parse (enough grammar ["they"; "zzz"]%string) reverse_order grammar
       ["they"; "zzz"]%string = Done 0.
Proof.
  assert (Hno : ~ occurs grammar "zzz"%string).
  { intros (A & rhs & Hin & Htok). destruct A; simpl in Hin;
      repeat (destruct Hin as [<-|Hin]; [simpl in Htok; intuition discriminate|]);
      destruct Hin. }
  split; [simpl; tauto|]. split; [exact Hno|].
  apply (@X5_unknown_token_rejected reverse_order grammar ["they"; "zzz"]%string
           "zzz"%string); [simpl; tauto|exact Hno].
Defined.

(** X6: a nonterminal that is not a key of the rules has no productions:
    predicting it leaves the loop state as it is, and when the start symbol
    is such a nonterminal, or has an empty list of alternatives, [parse]
    returns 0 on every input, the empty one included. *)
Theorem X6_undeclared_nonterminal (o : Order) (g : Grammar.t) (tokens : list string) :
  (forall A i s, Grammar.rules g A = None -> EarleyParser.predictor g i A s = Done s)
  /\ (Grammar.rules g (Grammar.start g) = None \/
      Grammar.rules g (Grammar.start g) = Some [] ->
      EarleyParser.parse (enough g tokens) o g tokens = Done 0).
Proof.
  split.
  - intros A i s H. unfold EarleyParser.predictor, Grammar.productions_for,
      Grammar.alternatives. now rewrite H.
  - intros H.
    destruct (@parse_enough o g tokens (enough g tokens) (le_n _)) as (F & _ & HF & E).
    rewrite E. f_equal.
    assert (Hle := count_le_alternatives (final_inv HF)).
    unfold Grammar.alternatives in Hle.
    destruct H as [H|H]; rewrite H in Hle; simpl in Hle; lia.
Qed.

(** ** What a pass changes *)

Lemma frame_refl (keep : nat -> Prop) (ch : Chart.t) : frame keep ch ch.
Proof. split; [apply grows_refl|reflexivity]. Qed.

Lemma frame_trans (keep : nat -> Prop) (ch1 ch2 ch3 : Chart.t) :
  frame keep ch1 ch2 -> frame keep ch2 ch3 -> frame keep ch1 ch3.
Proof.
  intros [G1 K1] [G2 K2]. split; [eapply grows_trans; eauto|].
  intros j Hj. now rewrite K2, K1.
Qed.

Lemma frame_weaken (keep keep' : nat -> Prop) (ch ch' : Chart.t) :
  (forall j, keep' j -> keep j) -> frame keep ch ch' -> frame keep' ch ch'.
Proof. intros H [G K]. split; auto. Qed.

Lemma add_frame (ch ch' : Chart.t) (idx : nat) (item : State.t) (b : bool) :
  Chart.add ch idx item = Done (ch', b) ->
  frame (fun j => j <> idx) ch ch'
  /\ size ch' = size ch + (if b then 1 else 0)
  /\ (b = false -> ch' = ch).
Proof.
  unfold Chart.add.
  destruct (index ch idx) as [c| |] eqn:E; simpl; try discriminate.
  destruct (index_done_col _ _ E) as [Hlt ->].
  destruct (Chart.mem item (col ch idx)); simpl; intros [= <- <-].
  - split; [apply frame_refl|]. split; [lia|reflexivity].
  - split; [split; [now apply grows_store|]|split; [|discriminate]].
    + intros j Hj. now apply col_store_other.
    + assert (H := @size_store ch idx (col ch idx ++ [item]) Hlt).
      rewrite length_app in H. simpl in H. lia.
Qed.

Lemma tracks_start (keep : nat -> Prop) (s : EarleyParser.loop_state) :
  tracks keep (fst s) (snd s) s.
Proof.
  split; [apply frame_refl|]. split; [now left|]. split; [reflexivity|].
  intros -> H. discriminate.
Qed.

Lemma tracks_weaken (keep keep' : nat -> Prop) (ch : Chart.t) (flag0 : bool)
  (s : EarleyParser.loop_state) :
  (forall j, keep' j -> keep j) -> tracks keep ch flag0 s -> tracks keep' ch flag0 s.
Proof.
  intros H (HF & Hrest). split; [|exact Hrest]. eapply frame_weaken; eauto.
Qed.

Lemma add_flag_tracks (keep : nat -> Prop) (ch : Chart.t) (flag0 : bool)
  (s s' : EarleyParser.loop_state) (idx : nat) (item : State.t) :
  ~ keep idx -> tracks keep ch flag0 s ->
  EarleyParser.add_flag idx item s = Done s' -> tracks keep ch flag0 s'.
Proof.
  intros Hk (HF & Hfl & Heq & Hup). unfold EarleyParser.add_flag.
  destruct (Chart.add (fst s) idx item) as [[ch' b]| |] eqn:E; simpl; try discriminate.
  intros [= <-]. destruct (add_frame _ _ _ E) as (HF' & Hs' & Hb).
  destruct b; simpl in *.
  - split; [|split; [now right|split; [discriminate|]]].
    + eapply frame_trans; [exact HF|]. eapply frame_weaken; [|exact HF'].
      intros j Hj ->. contradiction.
    + intros H0 _. destruct (snd s) eqn:Es.
      * specialize (Hup H0 eq_refl). simpl. lia.
      * rewrite (Heq eq_refl) in Hs'. simpl. lia.
  - rewrite (Hb eq_refl). repeat split; auto; apply HF.
Qed.

Section Frames.
Variables (o : Order) (g : Grammar.t) (tokens : list string).
Variables (keep : nat -> Prop) (ch : Chart.t) (flag0 : bool).

Lemma completer_tracks (i : nat) (st : State.t) (s s' : EarleyParser.loop_state) :
  ~ keep i -> tracks keep ch flag0 s ->
  EarleyParser.completer o i st s = Done s' -> tracks keep ch flag0 s'.
Proof.
  intros Hk HT. unfold EarleyParser.completer.
  destruct (Chart.getitem (fst s) (State.start st)) as [prevs| |]; simpl;
    try discriminate.
  apply for_each_preserves with (P := tracks keep ch flag0); auto.
  intros prev s1 s2 _ H1. rewrite next_symbol_done. simpl.
  destruct (EarleyParser.sym_is _ _); [now apply add_flag_tracks|now intros [= <-]].
Qed.

Lemma predictor_tracks (i : nat) (A : NonTerminal.t) (s s' : EarleyParser.loop_state) :
  ~ keep i -> tracks keep ch flag0 s ->
  EarleyParser.predictor g i A s = Done s' -> tracks keep ch flag0 s'.
Proof.
  intros Hk HT. unfold EarleyParser.predictor.
  apply for_each_preserves with (P := tracks keep ch flag0); auto.
  intros prod s1 s2 _ H1. now apply add_flag_tracks.
Qed.

Lemma scanner_tracks (i : nat) (st : State.t) (a : string)
  (s s' : EarleyParser.loop_state) :
  ~ keep (i + 1) -> tracks keep ch flag0 s ->
  EarleyParser.scanner tokens i st a s = Done s' -> tracks keep ch flag0 s'.
Proof.
  intros Hk HT. unfold EarleyParser.scanner.
  destruct (i <? List.length tokens); [|now intros [= <-]].
  destruct (index tokens i) as [tok| |]; simpl; try discriminate.
  destruct (String.eqb tok a); [now apply add_flag_tracks|now intros [= <-]].
Qed.

Lemma visit_tracks (i : nat) (st : State.t) (s s' : EarleyParser.loop_state) :
  ~ keep i -> ~ keep (i + 1) -> tracks keep ch flag0 s ->
  EarleyParser.visit o g tokens i st s = Done s' -> tracks keep ch flag0 s'.
Proof.
  intros Hk Hk' HT. unfold EarleyParser.visit. rewrite next_symbol_done. simpl.
  destruct (next st) as [[A|a]|].
  - now apply predictor_tracks.
  - now apply scanner_tracks.
  - now apply completer_tracks.
Qed.
End Frames.

Lemma pass_tracks (o : Order) (g : Grammar.t) (tokens : list string) (i : nat)
  (ch : Chart.t) (s' : EarleyParser.loop_state) :
  EarleyParser.pass o g tokens i ch = Done s' ->
  tracks (fun j => j <> i /\ j <> i + 1) ch false s'.
Proof.
  unfold EarleyParser.pass.
  destruct (Chart.getitem ch i) as [snapshot| |]; simpl; try discriminate.
  apply for_each_preserves
    with (P := tracks (fun j => j <> i /\ j <> i + 1) ch false).
  - intros st s1 s2 _ H1. apply visit_tracks; tauto.
  - apply (tracks_start _ (ch, false)).
Qed.

Lemma closure_frame (o : Order) (g : Grammar.t) (tokens : list string)
  (fuel i : nat) (ch ch' : Chart.t) :
  EarleyParser.closure fuel o g tokens i ch = Done ch' ->
  frame (fun j => j <> i /\ j <> i + 1) ch ch'.
Proof.
  revert ch. induction fuel as [|fuel IH]; intros ch; simpl; [discriminate|].
  destruct (EarleyParser.pass o g tokens i ch) as [[ch1 changed]| |] eqn:E; simpl;
    try discriminate.
  apply pass_tracks in E. destruct E as (HF & _). simpl in HF.
  destruct changed.
  - intros H. eapply frame_trans; [exact HF|now apply IH].
  - now intros [= <-].
Qed.

(** X7: nothing is ever taken out of a chart.  [Chart.add], each of the
    completer, predictor and scanner, a whole pass and a whole closure loop
    return a chart with the same number of columns in which every column
    still holds all the items it held before. *)
Theorem X7_charts_only_grow (o : Order) (g : Grammar.t) (tokens : list string) :
  (forall ch idx item ch' b, Chart.add ch idx item = Done (ch', b) -> grows ch ch')
  /\ (forall i st s s', EarleyParser.completer o i st s = Done s' ->
        grows (fst s) (fst s'))
  /\ (forall i A s s', EarleyParser.predictor g i A s = Done s' ->
        grows (fst s) (fst s'))
  /\ (forall i st a s s', EarleyParser.scanner tokens i st a s = Done s' ->
        grows (fst s) (fst s'))
  /\ (forall i ch s', EarleyParser.pass o g tokens i ch = Done s' ->
        grows ch (fst s'))
  /\ (forall fuel i ch ch', EarleyParser.closure fuel o g tokens i ch = Done ch' ->
        grows ch ch').
Proof.
  split; [intros ch idx item ch' b E; apply (add_frame _ _ _ E)|].
  split; [intros i st s s' E;
          apply (@completer_tracks o (fun _ => False) (fst s) (snd s) i st s s');
          auto using tracks_start|].
  split; [intros i A s s' E;
          apply (@predictor_tracks g (fun _ => False) (fst s) (snd s) i A s s');
          auto using tracks_start|].
  split; [intros i st a s s' E;
          apply (@scanner_tracks tokens (fun _ => False) (fst s) (snd s) i st a s s');
          auto using tracks_start|].
  split; [intros i ch s' E; apply (pass_tracks _ _ _ _ _ E)|].
  intros fuel i ch ch' E. apply (closure_frame _ _ _ _ _ _ E).
Qed.

(** X8: the steps are local.  Completer and predictor, run for column [i],
    leave every other column as it was; the scanner leaves every column but
    [i + 1] as it was; so a pass or a closure loop over column [i] changes
    columns [i] and [i + 1] at most. *)
Theorem X8_steps_are_local (o : Order) (g : Grammar.t) (tokens : list string) :
  (forall i st s s' j, EarleyParser.completer o i st s = Done s' ->
        j <> i -> col (fst s') j = col (fst s) j)
  /\ (forall i A s s' j, EarleyParser.predictor g i A s = Done s' ->
        j <> i -> col (fst s') j = col (fst s) j)
  /\ (forall i st a s s' j, EarleyParser.scanner tokens i st a s = Done s' ->
        j <> i + 1 -> col (fst s') j = col (fst s) j)
  /\ (forall i ch s' j, EarleyParser.pass o g tokens i ch = Done s' ->
        j <> i -> j <> i + 1 -> col (fst s') j = col ch j)
  /\ (forall fuel i ch ch' j, EarleyParser.closure fuel o g tokens i ch = Done ch' ->
        j <> i -> j <> i + 1 -> col ch' j = col ch j).
Proof.
  split; [intros i st s s' j E Hj;
          apply (@completer_tracks o (fun j => j <> i) (fst s) (snd s) i st s s');
          auto using tracks_start|].
  split; [intros i A s s' j E Hj;
          apply (@predictor_tracks g (fun j => j <> i) (fst s) (snd s) i A s s');
          auto using tracks_start|].
  split; [intros i st a s s' j E Hj;
          apply (@scanner_tracks tokens (fun j => j <> i + 1) (fst s) (snd s)
                   i st a s s'); auto using tracks_start|].
  split; [intros i ch s' j E Hi Hi'; apply (pass_tracks _ _ _ _ _ E); auto|].
  intros fuel i ch ch' j E Hi Hi'. apply (closure_frame _ _ _ _ _ _ E); auto.
Qed.

(** X9: the [changed] flag is exact.  A pass returns [changed = False] if and
    only if it returns the chart it was given; when it returns [True] the
    chart holds strictly more items than before. *)
Theorem X9_changed_flag_is_exact (o : Order) (g : Grammar.t) (tokens : list string)
  (i : nat) (ch ch' : Chart.t) (changed : bool) :
  EarleyParser.pass o g tokens i ch = Done (ch', changed) ->
  (changed = false <-> ch' = ch) /\ (changed = true -> size ch < size ch').
Proof.
  intros E. apply pass_tracks in E. destruct E as (_ & _ & Heq & Hup). simpl in *.
  split; [split; [assumption|]|auto].
  intros ->. destruct changed; [|reflexivity].
  specialize (Hup eq_refl eq_refl). lia.
Qed.

Lemma X9_changed_flag_is_exact_witness :
  EarleyParser.pass reverse_order grammar sent2 0
    [[State.mk (Production.mk NonTerminal.S [Nt NonTerminal.NP; Nt NonTerminal.VP]) 0 0];
     []; []; []]
  = Done ([[State.mk (Production.mk NonTerminal.S [Nt NonTerminal.NP; Nt NonTerminal.VP]) 0 0;
            State.mk (Production.mk NonTerminal.NP [Nt NonTerminal.N; Nt NonTerminal.PP]) 0 0;
            State.mk (Production.mk NonTerminal.NP [Nt NonTerminal.N]) 0 0];
           []; []; []], true)
  /\ ((true = false <->
       [[State.mk (Production.mk NonTerminal.S [Nt NonTerminal.NP; Nt NonTerminal.VP]) 0 0;
         State.mk (Production.mk NonTerminal.NP [Nt NonTerminal.N; Nt NonTerminal.PP]) 0 0;
         State.mk (Production.mk NonTerminal.NP [Nt NonTerminal.N]) 0 0];
        []; []; []]
       = [[State.mk (Production.mk NonTerminal.S [Nt NonTerminal.NP; Nt NonTerminal.VP]) 0 0];
          []; []; []])
      /\ (true = true ->
          size [[State.mk (Production.mk NonTerminal.S [Nt NonTerminal.NP; Nt NonTerminal.VP]) 0 0];
                []; []; []]
          < size [[State.mk (Production.mk NonTerminal.S [Nt NonTerminal.NP; Nt NonTerminal.VP]) 0 0;
                   State.mk (Production.mk NonTerminal.NP [Nt NonTerminal.N; Nt NonTerminal.PP]) 0 0;
                   State.mk (Production.mk NonTerminal.NP [Nt NonTerminal.N]) 0 0];
                  []; []; []])).
Proof.
  split; [vm_compute; reflexivity|].
  apply (@X9_changed_flag_is_exact reverse_order grammar sent2 0). vm_compute; reflexivity.
Defined.

(** ** Size of the columns *)

Lemma list_sum_const (A : Type) (l : list A) (c : nat) :
  list_sum (map (fun _ => c) l) = List.length l * c.
Proof. induction l as [|x l IH]; simpl; lia. Qed.

Lemma list_sum_scale (A : Type) (f : A -> nat) (l : list A) (c : nat) :
  list_sum (map (fun x => f x * c) l) = list_sum (map f l) * c.
Proof. induction l as [|x l IH]; simpl; lia. Qed.

Lemma length_universe (g : Grammar.t) (i : nat) :
  List.length (universe g i) = dotted g * (i + 1).
Proof.
  unfold universe, dotted. rewrite length_flat_map, <- list_sum_scale.
  f_equal. apply map_ext. intros nt.
  rewrite length_flat_map, <- list_sum_scale. f_equal. apply map_ext. intros prod.
  rewrite length_flat_map.
  rewrite (map_ext _ (fun _ => i + 1)).
  - now rewrite list_sum_const, length_seq.
  - intros d. now rewrite length_map, length_seq.
Qed.

(** X10: column [i] of the chart never holds more than [D * (i + 1)] items,
    [D] being the number of dotted rules of the grammar (one per position in
    each declared alternative); so the chart for [n] tokens holds at most
    [D * (n + 1) * (n + 1)] items. *)
Theorem X10_column_size_bound (o : Order) (g : Grammar.t) (tokens : list string) :
  exists F,
    EarleyParser.fill (enough g tokens) o g tokens = Done F
    /\ List.length F = List.length tokens + 1
    /\ (forall i, List.length (col F i) <= dotted g * (i + 1))
    /\ size F <= dotted g * (List.length tokens + 1) * (List.length tokens + 1).
Proof.
  destruct (@parse_enough o g tokens (enough g tokens) (le_n _)) as (F & E & HF & _).
  assert (HI := final_inv HF).
  assert (Hcol : forall i, List.length (col F i) <= dotted g * (i + 1)).
  { intros i. rewrite <- length_universe.
    apply NoDup_incl_length; [apply (inv_nodup HI)|].
    intros st Hst. apply in_universe. apply (derivable_ok (inv_sound HI _ _ Hst)). }
  exists F. split; [assumption|]. split; [apply (inv_length HI)|].
  split; [assumption|].
  unfold size.
  assert (H := @sum_lengths_le F
                 (fun _ => dotted g * (List.length tokens + 1)) 0).
  rewrite list_sum_const, length_seq, (inv_length HI) in H.
  rewrite (Nat.mul_comm (dotted g * _)). apply H.
  intros j Hj. simpl.
  specialize (Hcol j). unfold col in Hcol.
  assert (dotted g * (j + 1) <= dotted g * (List.length tokens + 1))
    by (apply Nat.mul_le_mono_l; lia).
  lia.
Qed.

(** ** The chart does not depend on the iteration order *)

(** X11: two runs of the chart construction on the same grammar and tokens,
    under any two iteration orders of the sets, end with the same items in
    every column. *)
Theorem X11_chart_independent_of_order (o1 o2 : Order) (g : Grammar.t)
  (tokens : list string) :
  (exists F1 F2, EarleyParser.fill (enough g tokens) o1 g tokens = Done F1
                 /\ EarleyParser.fill (enough g tokens) o2 g tokens = Done F2)
  /\ forall fuel1 fuel2 F1 F2,
       EarleyParser.fill fuel1 o1 g tokens = Done F1 ->
       EarleyParser.fill fuel2 o2 g tokens = Done F2 ->
       List.length F1 = List.length F2
       /\ forall j, NoDup (col F1 j) /\ NoDup (col F2 j)
                    /\ Permutation (col F1 j) (col F2 j).
Proof.
  split.
  - destruct (@parse_enough o1 g tokens (enough g tokens) (le_n _)) as (F1 & E1 & _).
    destruct (@parse_enough o2 g tokens (enough g tokens) (le_n _)) as (F2 & E2 & _).
    eauto.
  - intros fuel1 fuel2 F1 F2 E1 E2.
    apply fill_final in E1, E2. split.
    + rewrite (inv_length (final_inv E1)), (inv_length (final_inv E2)). reflexivity.
    + intros j. split; [apply (inv_nodup (final_inv E1))|].
      split; [apply (inv_nodup (final_inv E2))|]. now apply final_perm with g tokens.
Qed.

(** ** Seeding *)

Lemma add_content (ch ch' : Chart.t) (idx : nat) (item : State.t) (b : bool) :
  Chart.add ch idx item = Done (ch', b) ->
  forall x, In x (col ch' idx) -> In x (col ch idx) \/ x = item.
Proof.
  unfold Chart.add.
  destruct (index ch idx) as [c| |] eqn:E; simpl; try discriminate.
  destruct (index_done_col _ _ E) as [Hlt ->].
  destruct (Chart.mem item (col ch idx)); simpl; intros [= <- <-] x; [tauto|].
  rewrite col_store_same by assumption. rewrite in_app_iff. simpl. intuition.
Qed.

(** X12: seeding a fresh chart puts in column 0 exactly the items
    [(prod, 0, 0)] for the productions of the start symbol, each once even
    when an alternative is declared twice, and leaves every other column
    empty. *)
Theorem X12_seed_contents (g : Grammar.t) (tokens : list string) :
  exists ch,
    EarleyParser.seed g (Chart.init (List.length tokens)) = Done ch
    /\ List.length ch = List.length tokens + 1
    /\ NoDup (col ch 0)
    /\ (forall st, In st (col ch 0) <->
          exists prod, In prod (Grammar.productions_for g (Grammar.start g))
                       /\ st = State.mk prod 0 0)
    /\ (forall j, j <> 0 -> col ch j = []).
Proof.
  destruct (seed_ok g tokens) as (ch & E & HI & HS).
  exists ch. split; [assumption|]. split; [apply (inv_length HI)|].
  split; [apply (inv_nodup HI)|].
  assert (H : (forall st, In st (col ch 0) ->
                 exists prod, In prod (Grammar.productions_for g (Grammar.start g))
                              /\ st = State.mk prod 0 0)
              /\ (forall j, j <> 0 -> col ch j = [])).
  { revert E. unfold EarleyParser.seed.
    apply for_each_preserves
      with (P := fun c : Chart.t =>
                   (forall st, In st (col c 0) ->
                      exists prod, In prod (Grammar.productions_for g (Grammar.start g))
                                   /\ st = State.mk prod 0 0)
                   /\ (forall j, j <> 0 -> col c j = [])).
    - intros prod c1 c2 Hin [H1 H2].
      destruct (Chart.add c1 0 (State.mk prod 0 0)) as [[c3 b]| |] eqn:E; simpl;
        try discriminate.
      intros [= <-]. split.
      + intros st Hst. destruct (add_content _ _ _ E _ Hst) as [H| ->]; eauto.
      + intros j Hj. destruct (add_frame _ _ _ E) as ([_ Hk] & _).
        rewrite Hk by assumption. now apply H2.
    - split; [intros st|intros j _]; rewrite col_init; [intros []|reflexivity]. }
  destruct H as [H1 H2]. split; [|assumption].
  intros st. split; [apply H1|]. intros (prod & Hp & ->). now apply HS.
Qed.

(** ** Items and their dot *)

Lemma index_int_spec (A : Type) (xs : list A) (i : Z) :
  ((i < - Z.of_nat (List.length xs) \/ Z.of_nat (List.length xs) <= i)%Z ->
   index_int xs i = Raise IndexError)
  /\ ((0 <= i < Z.of_nat (List.length xs))%Z -> index_int xs i = index xs (Z.to_nat i))
  /\ ((- Z.of_nat (List.length xs) <= i < 0)%Z ->
      index_int xs i = index xs (Z.to_nat (i + Z.of_nat (List.length xs)))).
Proof.
  unfold index_int. cbv zeta. repeat split; intros H.
  - destruct (Z.ltb_spec i 0).
    + destruct (Z.ltb_spec (i + Z.of_nat (List.length xs)) 0); [reflexivity|].
      destruct (Z.leb_spec (Z.of_nat (List.length xs))
                           (i + Z.of_nat (List.length xs))); [reflexivity|lia].
    + destruct (Z.ltb_spec i 0); [lia|].
      destruct (Z.leb_spec (Z.of_nat (List.length xs)) i); [reflexivity|lia].
  - destruct (Z.ltb_spec i 0); [lia|]. destruct (Z.ltb_spec i 0); [lia|].
    destruct (Z.leb_spec (Z.of_nat (List.length xs)) i); [lia|]. reflexivity.
  - destruct (Z.ltb_spec i 0); [|lia].
    destruct (Z.ltb_spec (i + Z.of_nat (List.length xs)) 0); [lia|].
    destruct (Z.leb_spec (Z.of_nat (List.length xs)) (i + Z.of_nat (List.length xs)));
      [lia|]. reflexivity.
Qed.

Lemma index_in_range (A : Type) (xs : list A) (k : nat) :
  k < List.length xs -> exists x, nth_error xs k = Some x /\ index xs k = Done x.
Proof.
  intros H. unfold index. destruct (nth_error xs k) as [x|] eqn:E; [eauto|].
  apply nth_error_None in E. lia.
Qed.

(** X13: [next_symbol] on an item with any integer dot.  It returns [None]
    exactly when the dot is at or past the end of the right-hand side; for a
    dot inside the right-hand side it returns the symbol there; a negative dot
    is not complete and is read from the end of the right-hand side, and
    [IndexError] is raised exactly when the dot is below [-len(rhs)].  On
    items with non-negative fields, the only ones [parse] builds, [State]
    agrees with this: there [next_symbol] never raises, [advance] moves the
    symbol at the dot into the matched part, and an item taken at dot 0 is
    complete after [k] advances exactly when [k >= len(rhs)]. *)
Theorem X13_next_symbol_and_advance (s : IntState.t) (st : State.t) :
  (IntState.next_symbol s = Raise IndexError <->
   (IntState.dot s
    < - Z.of_nat (List.length (Production.rhs (IntState.production s))))%Z)
  /\ (IntState.next_symbol s = Done None <->
      (Z.of_nat (List.length (Production.rhs (IntState.production s)))
       <= IntState.dot s)%Z)
  /\ ((0 <= IntState.dot s
         < Z.of_nat (List.length (Production.rhs (IntState.production s))))%Z ->
      exists x, nth_error (Production.rhs (IntState.production s))
                          (Z.to_nat (IntState.dot s)) = Some x
                /\ IntState.next_symbol s = Done (Some x))
  /\ ((- Z.of_nat (List.length (Production.rhs (IntState.production s)))
         <= IntState.dot s < 0)%Z ->
      exists x, nth_error (Production.rhs (IntState.production s))
                          (Z.to_nat (IntState.dot s
                             + Z.of_nat (List.length
                                 (Production.rhs (IntState.production s))))) = Some x
                /\ IntState.next_symbol s = Done (Some x))
  /\ (IntState.next_symbol (IntState.of_state st) = State.next_symbol st
      /\ IntState.is_complete (IntState.of_state st) = State.is_complete st
      /\ IntState.advance (IntState.of_state st) = IntState.of_state (State.advance st))
  /\ (exists sym, State.next_symbol st = Done sym)
  /\ (State.next_symbol st = Done None <-> State.is_complete st = true)
  /\ (forall x, State.next_symbol st = Done (Some x) ->
        State.is_complete st = false
        /\ nth_error (Production.rhs (State.production st)) (State.dot st) = Some x
        /\ matched (State.advance st) = matched st ++ [x])
  /\ (forall k, State.is_complete
                  (Nat.iter k State.advance
                     (State.mk (State.production st) 0 (State.start st))) = true
                <-> List.length (Production.rhs (State.production st)) <= k)
  /\ (State.is_complete st = true -> State.is_complete (State.advance st) = true).
Proof.
  destruct s as [prod d j]. simpl.
  set (rhs := Production.rhs prod).
  destruct (index_int_spec rhs d) as (Hout & Hin & Hneg).
  assert (Hinside : (0 <= d < Z.of_nat (List.length rhs))%Z ->
            exists x, nth_error rhs (Z.to_nat d) = Some x
                      /\ IntState.next_symbol (IntState.mk prod d j) = Done (Some x)).
  { intros H. unfold IntState.next_symbol, IntState.is_complete. simpl. fold rhs.
    destruct (Z.leb_spec (Z.of_nat (List.length rhs)) d); [lia|].
    rewrite (Hin H).
    destruct (@index_in_range Symbol rhs (Z.to_nat d)) as (x & E1 & E2); [lia|].
    exists x. now rewrite E2. }
  assert (Hfromend : (- Z.of_nat (List.length rhs) <= d < 0)%Z ->
            exists x, nth_error rhs (Z.to_nat (d + Z.of_nat (List.length rhs))) = Some x
                      /\ IntState.next_symbol (IntState.mk prod d j) = Done (Some x)).
  { intros H. unfold IntState.next_symbol, IntState.is_complete. simpl. fold rhs.
    destruct (Z.leb_spec (Z.of_nat (List.length rhs)) d); [lia|].
    rewrite (Hneg H).
    destruct (@index_in_range Symbol rhs (Z.to_nat (d + Z.of_nat (List.length rhs))))
      as (x & E1 & E2); [lia|].
    exists x. now rewrite E2. }
  assert (Hbelow : (d < - Z.of_nat (List.length rhs))%Z ->
            IntState.next_symbol (IntState.mk prod d j) = Raise IndexError).
  { intros H. unfold IntState.next_symbol, IntState.is_complete. simpl. fold rhs.
    destruct (Z.leb_spec (Z.of_nat (List.length rhs)) d); [lia|].
    rewrite Hout by lia. reflexivity. }
  assert (Hpast : (Z.of_nat (List.length rhs) <= d)%Z ->
            IntState.next_symbol (IntState.mk prod d j) = Done None).
  { intros H. unfold IntState.next_symbol, IntState.is_complete. simpl. fold rhs.
    destruct (Z.leb_spec (Z.of_nat (List.length rhs)) d); [reflexivity|lia]. }
  assert (Hcases : (d < - Z.of_nat (List.length rhs)
                    \/ (- Z.of_nat (List.length rhs) <= d < 0)
                    \/ (0 <= d < Z.of_nat (List.length rhs))
                    \/ Z.of_nat (List.length rhs) <= d)%Z) by lia.
  split; [|split; [|split; [assumption|split; [assumption|]]]].
  - split; [|assumption]. intros E.
    destruct Hcases as [H|[H|[H|H]]]; [assumption| | |].
    + destruct (Hfromend H) as (x & _ & E'). congruence.
    + destruct (Hinside H) as (x & _ & E'). congruence.
    + rewrite (Hpast H) in E. discriminate.
  - split; [|assumption]. intros E.
    destruct Hcases as [H|[H|[H|H]]]; [| | |assumption].
    + rewrite (Hbelow H) in E. discriminate.
    + destruct (Hfromend H) as (x & _ & E'). congruence.
    + destruct (Hinside H) as (x & _ & E'). congruence.
  - clear. split; [split; [|split]|].
    + unfold IntState.next_symbol, State.next_symbol, IntState.is_complete,
        State.is_complete, IntState.of_state. simpl.
      destruct (Nat.leb_spec (List.length (Production.rhs (State.production st)))
                             (State.dot st)) as [H|H];
        destruct (Z.leb_spec
                    (Z.of_nat (List.length (Production.rhs (State.production st))))
                    (Z.of_nat (State.dot st))); try lia; [reflexivity|].
      destruct (index_int_spec (Production.rhs (State.production st))
                               (Z.of_nat (State.dot st))) as (_ & Hin & _).
      rewrite Hin by lia. now rewrite Nat2Z.id.
    + unfold IntState.is_complete, State.is_complete, IntState.of_state. simpl.
      destruct (Nat.leb_spec (List.length (Production.rhs (State.production st)))
                             (State.dot st));
        destruct (Z.leb_spec
                    (Z.of_nat (List.length (Production.rhs (State.production st))))
                    (Z.of_nat (State.dot st))); try lia; reflexivity.
    + unfold IntState.advance, IntState.of_state, State.advance. simpl.
      f_equal. lia.
    + rewrite next_symbol_done. split; [eauto|]. split; [|split; [|split]].
      * rewrite <- next_none_complete. split; congruence.
      * intros x [= H]. split; [|split].
        -- destruct (State.is_complete st) eqn:E; [|reflexivity].
           apply next_none_complete in E. congruence.
        -- exact H.
        -- now apply matched_advance.
      * intros k.
        assert (H : forall k, Nat.iter k State.advance
                      (State.mk (State.production st) 0 (State.start st))
                    = State.mk (State.production st) k (State.start st)).
        { induction k0 as [|k0 IH]; simpl; [reflexivity|].
          rewrite IH. unfold State.advance. simpl. f_equal. lia. }
        rewrite H. unfold State.is_complete. simpl. apply Nat.leb_le.
      * unfold State.is_complete. simpl. rewrite !Nat.leb_le. lia.
Qed.

(** ** Index errors *)

Lemma int_index_nonneg (A : Type) (xs : list A) (i : Z) :
  (0 <= i)%Z -> index_int xs i = index xs (Z.to_nat i)
                /\ resolve (List.length xs) i = Z.to_nat i.
Proof.
  intros H. unfold resolve. destruct (Z.ltb_spec i 0); [lia|]. split; [|reflexivity].
  destruct (index_int_spec xs i) as (Hout & Hin & _).
  destruct (Z.lt_ge_cases i (Z.of_nat (List.length xs))).
  - apply Hin. lia.
  - rewrite Hout by lia. symmetry. apply index_raises. lia.
Qed.

Lemma int_index_from_end (A : Type) (xs : list A) (i : Z) :
  (- Z.of_nat (List.length xs) <= i < 0)%Z ->
  index_int xs i = index xs (Z.to_nat (i + Z.of_nat (List.length xs)))
  /\ resolve (List.length xs) i = Z.to_nat (i + Z.of_nat (List.length xs)).
Proof.
  intros H. unfold resolve. destruct (Z.ltb_spec i 0); [|lia]. split; [|reflexivity].
  now apply index_int_spec.
Qed.

(** X14: indexing a chart with any integer.  [chart[idx]] and
    [chart.add(idx, item)] raise [IndexError] exactly when [idx] is below
    [-len] or at least [len], [len] being the number of columns; a negative
    index from [-len] on designates the column [idx + len], so that reading or
    adding there is reading or adding at that column; a non-negative index
    behaves as in [Chart]; and the chart made for [n] tokens has [n + 1] empty
    columns, the last one also reached at index [-1]. *)
Theorem X14_index_errors (ch : Chart.t) (idx : Z) (item : State.t) :
  (IntChart.getitem ch idx = Raise IndexError <->
   (idx < - Z.of_nat (List.length ch) \/ Z.of_nat (List.length ch) <= idx)%Z)
  /\ (IntChart.add ch idx item = Raise IndexError <->
      (idx < - Z.of_nat (List.length ch) \/ Z.of_nat (List.length ch) <= idx)%Z)
  /\ ((0 <= idx)%Z ->
      IntChart.getitem ch idx = Chart.getitem ch (Z.to_nat idx)
      /\ IntChart.add ch idx item = Chart.add ch (Z.to_nat idx) item)
  /\ ((- Z.of_nat (List.length ch) <= idx < 0)%Z ->
      IntChart.getitem ch idx
      = Done (col ch (Z.to_nat (idx + Z.of_nat (List.length ch))))
      /\ IntChart.add ch idx item
         = Chart.add ch (Z.to_nat (idx + Z.of_nat (List.length ch))) item)
  /\ (forall n, List.length (Chart.init n) = n + 1
                /\ (forall k, k <= n -> Chart.getitem (Chart.init n) k = Done [])
                /\ IntChart.getitem (Chart.init n) (-1) = Done []
                /\ IntChart.getitem (Chart.init n) (- Z.of_nat n - 2)
                   = Raise IndexError).
Proof.
  assert (Hnn : (0 <= idx)%Z ->
            IntChart.getitem ch idx = Chart.getitem ch (Z.to_nat idx)
            /\ IntChart.add ch idx item = Chart.add ch (Z.to_nat idx) item).
  { intros H. destruct (int_index_nonneg ch H) as [E1 E2].
    unfold IntChart.getitem, IntChart.add, Chart.getitem, Chart.add.
    now rewrite E1, E2. }
  assert (Hneg : (- Z.of_nat (List.length ch) <= idx < 0)%Z ->
            IntChart.getitem ch idx
            = Chart.getitem ch (Z.to_nat (idx + Z.of_nat (List.length ch)))
            /\ IntChart.add ch idx item
               = Chart.add ch (Z.to_nat (idx + Z.of_nat (List.length ch))) item).
  { intros H. destruct (int_index_from_end ch H) as [E1 E2].
    unfold IntChart.getitem, IntChart.add, Chart.getitem, Chart.add.
    now rewrite E1, E2. }
  assert (Hout : (idx < - Z.of_nat (List.length ch)
                  \/ Z.of_nat (List.length ch) <= idx)%Z ->
            IntChart.getitem ch idx = Raise IndexError
            /\ IntChart.add ch idx item = Raise IndexError).
  { intros H. unfold IntChart.getitem, IntChart.add.
    now rewrite (proj1 (index_int_spec ch idx) H). }
  assert (Hok : forall k, k < List.length ch ->
            Chart.getitem ch k = Done (col ch k)
            /\ Chart.add ch k item <> Raise IndexError).
  { intros k Hk. split; [now apply index_col|].
    rewrite add_done by assumption. destruct (Chart.mem item (col ch k)); discriminate. }
  assert (Hcases : (idx < - Z.of_nat (List.length ch)
                    \/ (- Z.of_nat (List.length ch) <= idx < 0)
                    \/ (0 <= idx < Z.of_nat (List.length ch))
                    \/ Z.of_nat (List.length ch) <= idx)%Z) by lia.
  split; [|split; [|split; [assumption|split]]].
  - split; [|apply Hout]. intros E.
    destruct Hcases as [H|[H|[H|H]]]; [lia| | |lia]; exfalso.
    + assert (Hk : Z.to_nat (idx + Z.of_nat (List.length ch)) < List.length ch) by lia.
      rewrite (proj1 (Hneg H)), (proj1 (Hok _ Hk)) in E. discriminate.
    + assert (Hk : Z.to_nat idx < List.length ch) by lia.
      rewrite (proj1 (Hnn (proj1 H))), (proj1 (Hok _ Hk)) in E. discriminate.
  - split; [|apply Hout]. intros E.
    destruct Hcases as [H|[H|[H|H]]]; [lia| | |lia]; exfalso.
    + assert (Hk : Z.to_nat (idx + Z.of_nat (List.length ch)) < List.length ch) by lia.
      rewrite (proj2 (Hneg H)) in E. now apply (proj2 (Hok _ Hk)) in E.
    + assert (Hk : Z.to_nat idx < List.length ch) by lia.
      rewrite (proj2 (Hnn (proj1 H))) in E. now apply (proj2 (Hok _ Hk)) in E.
  - intros H. destruct (Hneg H) as [E1 E2]. split; [|assumption].
    rewrite E1. apply Hok. lia.
  - intros n.
    assert (Hlen : List.length (Chart.init n) = n + 1) by apply repeat_length.
    split; [assumption|]. split; [|split].
    + intros k Hk. unfold Chart.getitem. rewrite index_col by lia. now rewrite col_init.
    + unfold IntChart.getitem.
      rewrite (proj1 (@int_index_from_end _ (Chart.init n) (-1) ltac:(lia))).
      rewrite index_col by lia. now rewrite col_init.
    + unfold IntChart.getitem. apply index_int_spec. lia.
Qed.

(** ** Printed forms *)

Lemma append_empty_r (s : string) : (s ++ "")%string = s.
Proof. induction s as [|c s IH]; simpl; [reflexivity|now rewrite IH]. Qed.

Lemma append_eq_empty (a b : string) :
  (a ++ b)%string = EmptyString -> a = EmptyString /\ b = EmptyString.
Proof. destruct a; simpl; [auto|discriminate]. Qed.

(** Two blank-free words followed by nothing or by a blank are cut at the same
    place. *)
Lemma word_cut (a b x y : string) :
  space_free a -> space_free b ->
  (x = EmptyString \/ exists x', x = String " " x') ->
  (y = EmptyString \/ exists y', y = String " " y') ->
  (a ++ x)%string = (b ++ y)%string -> a = b /\ x = y.
Proof.
  revert b. induction a as [|c a IH]; intros [|d b] Ha Hb Hx Hy E; simpl in *.
  - auto.
  - exfalso. destruct Hx as [->|(x' & ->)]; [discriminate|].
    injection E as <- _. now destruct Hb.
  - exfalso. destruct Hy as [->|(y' & ->)]; [discriminate|].
    injection E as -> _. now destruct Ha.
  - injection E as <- E. destruct Ha as [_ Ha]. destruct Hb as [_ Hb].
    destruct (IH b Ha Hb Hx Hy E) as [-> ->]. auto.
Qed.

Lemma concat_cons (w : string) (l : list string) :
  String.concat " " (w :: l)
  = (w ++ match l with
          | [] => ""
          | _ :: _ => String " " (String.concat " " l)
          end)%string.
Proof. destruct l; simpl; [now rewrite append_empty_r|reflexivity]. Qed.

Lemma join_injective (l1 l2 : list string) :
  Forall (fun w => w <> EmptyString /\ space_free w) l1 ->
  Forall (fun w => w <> EmptyString /\ space_free w) l2 ->
  String.concat " " l1 = String.concat " " l2 -> l1 = l2.
Proof.
  intros H1. revert l2. induction H1 as [|w1 l1 [Hn1 Hw1] H1 IH];
    intros l2 H2 E; destruct H2 as [|w2 l2 [Hn2 Hw2] H2].
  - reflexivity.
  - rewrite concat_cons in E. simpl in E. symmetry in E.
    apply append_eq_empty in E. now destruct E.
  - rewrite concat_cons in E. simpl in E.
    apply append_eq_empty in E. now destruct E.
  - rewrite !concat_cons in E.
    apply word_cut in E; auto.
    + destruct E as [-> E]. f_equal.
      destruct l1 as [|a l1], l2 as [|b l2]; try discriminate; auto.
      injection E as E. now apply IH.
    + destruct l1; [now left|right; eauto].
    + destruct l2; [now left|right; eauto].
Qed.

Lemma name_word (A : NonTerminal.t) :
  NonTerminal_name A <> EmptyString /\ space_free (NonTerminal_name A).
Proof. destruct A; simpl; repeat split; discriminate. Qed.

Lemma name_injective (A B : NonTerminal.t) :
  NonTerminal_name A = NonTerminal_name B -> A = B.
Proof. destruct A, B; simpl; intros H; try reflexivity; discriminate. Qed.

Lemma plain_word (sym : Symbol) :
  plain sym -> symbol_text sym <> EmptyString /\ space_free (symbol_text sym).
Proof. destruct sym as [A|s]; simpl; [intros _; apply name_word|tauto]. Qed.

Lemma text_injective (x y : Symbol) :
  plain x -> plain y -> symbol_text x = symbol_text y -> x = y.
Proof.
  destruct x as [A|s], y as [B|t]; simpl; intros Hx Hy E.
  - f_equal. now apply name_injective.
  - destruct Hy as (_ & _ & Hy). symmetry in E. now apply Hy in E.
  - destruct Hx as (_ & _ & Hx). now apply Hx in E.
  - now f_equal.
Qed.

Lemma texts_injective (l1 l2 : list Symbol) :
  Forall plain l1 -> Forall plain l2 ->
  map symbol_text l1 = map symbol_text l2 -> l1 = l2.
Proof.
  intros H1. revert l2. induction H1 as [|x l1 Hx H1 IH]; intros l2 H2 E;
    destruct H2 as [|y l2 Hy H2]; simpl in E; try discriminate; auto.
  injection E as E1 E2. f_equal; [now apply text_injective|now apply IH].
Qed.

Example production_repr_sample :
  Production_repr
    (Production.mk NonTerminal.S [Nt NonTerminal.NP; Nt NonTerminal.VP])
  = "S -> NP VP"%string
  /\ Production_repr (Production.mk NonTerminal.N [Tok "December"])
     = "N -> December"%string
  /\ Production_repr (Production.mk NonTerminal.S []) = "S -> "%string.
Proof. repeat split. Qed.

Example state_repr_sample :
  State_repr
    (State.mk (Production.mk NonTerminal.S [Nt NonTerminal.NP; Nt NonTerminal.VP]) 1 12)
  = "[S -> NP  .  VP, from 12]"%string
  /\ State_repr (State.mk (Production.mk NonTerminal.N [Tok "fish"]) 1 0)
     = "[N -> fish  . , from 0]"%string.
Proof. repeat split. Qed.

(** X15: [Production.__repr__] tells productions apart as long as their
    terminals are single words that are not names of nonterminals: two such
    productions with the same text are the same production.  Without the
    condition it does not: a terminal spelt like a nonterminal prints like
    that nonterminal. *)
Theorem X15_production_repr_injective :
  (forall p q, Forall plain (Production.rhs p) -> Forall plain (Production.rhs q) ->
     Production_repr p = Production_repr q -> p = q)
  /\ (forall lhs A pre post,
        Production_repr (Production.mk lhs (pre ++ Tok (NonTerminal_name A) :: post))
        = Production_repr (Production.mk lhs (pre ++ Nt A :: post))).
Proof.
  split.
  - intros p q Hp Hq E. unfold Production_repr in E.
    apply word_cut in E;
      [|apply name_word|apply name_word|right; simpl; eauto|right; simpl; eauto].
    destruct E as [El Er]. apply name_injective in El.
    injection Er as Er.
    apply join_injective in Er.
    + apply texts_injective in Er; auto. destruct p, q; simpl in *. congruence.
    + apply Forall_map. eapply Forall_impl; [|exact Hp]. apply plain_word.
    + apply Forall_map. eapply Forall_impl; [|exact Hq]. apply plain_word.
  - intros lhs A pre post. unfold Production_repr. simpl.
    now rewrite !map_app.
Qed.

(** X16: [State.__repr__] writes the marker [" . "] between the texts of the
    matched symbols and the texts of the remaining ones, and a dot at or past
    the end of the right-hand side prints the marker last: items that differ
    only by how far past the end the dot is print alike. *)
Theorem X16_state_repr_marker (st : State.t) :
  State_repr st
  = ("[" ++ NonTerminal_name (Production.lhs (State.production st)) ++ " -> "
     ++ String.concat " "
          (map symbol_text (matched st) ++ " . "
           :: map symbol_text (skipn (State.dot st)
                                     (Production.rhs (State.production st))))
     ++ ", from " ++ str_int (State.start st) ++ "]")%string
  /\ (List.length (Production.rhs (State.production st)) <= State.dot st ->
      list_insert (State.dot st) (Tok " . ") (Production.rhs (State.production st))
      = Production.rhs (State.production st) ++ [Tok " . "]
      /\ State_repr st
         = State_repr (State.mk (State.production st)
                         (List.length (Production.rhs (State.production st)))
                         (State.start st))).
Proof.
  split.
  - unfold State_repr, list_insert, matched. now rewrite map_app.
  - intros H.
    assert (E : forall d, List.length (Production.rhs (State.production st)) <= d ->
                list_insert d (Tok " . ") (Production.rhs (State.production st))
                = Production.rhs (State.production st) ++ [Tok " . "]).
    { intros d Hd. unfold list_insert. now rewrite firstn_all2, skipn_all2. }
    split; [now apply E|]. unfold State_repr. simpl.
    now rewrite (E _ H), (E _ (le_n _)).
Qed.

(** ** Dead columns *)

Lemma derivable_earlier (g : Grammar.t) (tokens : list string) (j : nat) (st : State.t) :
  Derivable g tokens j st ->
  forall i, i <= j -> exists st', Derivable g tokens i st'.
Proof.
  induction 1 as [prod Hp | j st prev H1 IH1 Hn H2 IH2 Hp
                 | j st A prod H1 IH1 Hn Hp | j st a H1 IH1 Hn Ht]; intros i Hi.
  - exists (State.mk prod 0 0). replace i with 0 by lia. now apply D_seed.
  - now apply IH1.
  - now apply IH1.
  - destruct (Nat.eq_dec i (j + 1)) as [->|Hne].
    + exists (State.advance st). eapply D_scan; eauto.
    + apply IH1. lia.
Qed.

(** X17: once a column of the chart is empty, so is every later one, and the
    input is rejected. *)
Theorem X17_empty_column_rejects (o : Order) (g : Grammar.t) (tokens : list string) :
  exists F,
    EarleyParser.fill (enough g tokens) o g tokens = Done F
    /\ forall i, i <= List.length tokens -> col F i = [] ->
         (forall j, i <= j -> col F j = [])
         /\ EarleyParser.parse (enough g tokens) o g tokens = Done 0.
Proof.
  destruct (@parse_enough o g tokens (enough g tokens) (le_n _)) as (F & E & HF & EP).
  exists F. split; [assumption|]. intros i Hi Hempty.
  assert (Hall : forall j, i <= j -> col F j = []).
  { intros j Hj. destruct (col F j) as [|st l] eqn:Ej; [reflexivity|exfalso].
    assert (Hd : Derivable g tokens j st).
    { apply (inv_sound (final_inv HF)). rewrite Ej. now left. }
    destruct (derivable_earlier Hd Hj) as (st' & Hd').
    apply (final_complete HF) in Hd'. now rewrite Hempty in Hd'. }
  split; [assumption|]. rewrite EP, (Hall _ Hi). reflexivity.
Qed.
